(** * dnscache: a bounded, single-flight DNS lookup cache

    A shallow embedding of [dnscache.go] (package [dnscache]) and the
    verification of its specification.

    The Go code is concurrent: callers of [LookupHost], [LookupAddr] and
    [Refresh] run as goroutines over one shared [Resolver].  The embedding
    keeps the text of every source function as a program over the atomic
    actions the source performs (one critical section on the cache, one call
    into the flight coordinator, one [select]), and gives those actions a
    semantics on an explicit shared state.  A thread's own step is computed by
    [next]; everything else that may happen between two of its steps is the
    environment, and the per-thread theorems quantify over every state the
    environment may have produced. *)

From stdpp Require Import base list strings gmap.
From Stdlib Require Import ZArith Lia Ascii.

Local Open Scope string_scope.
Local Open Scope list_scope.

(** ** Errors, contexts and cache entries *)

(** The [error] values the code distinguishes.  [context.DeadlineExceeded] and
    [context.Canceled] are the two sentinels a context reports; every other
    error (a resolver failure) is carried by its message. *)
Inductive error : Type :=
| DeadlineExceeded
| Canceled
| ErrorString (msg : string).

#[global] Instance error_eq_dec : EqDecision error.
Proof. solve_decision. Defined.

(** [context.Context], as far as the code looks at it: a context either never
    finishes ([context.Background]), or may be cancelled by its owner, or
    carries a deadline (and may still be cancelled before it). *)
Inductive Context : Type :=
| Background
| WithCancel
| WithTimeout (d : Z).

(** The values [ctx.Err()] may have once [ctx.Done()] is closed. *)
Definition ctx_errs (ctx : Context) : list error :=
  match ctx with
  | Background => []
  | WithCancel => [Canceled]
  | WithTimeout _ => [DeadlineExceeded; Canceled]
  end.

(** [type cacheEntry struct { rrs []string; err error }].  A nil slice is the
    empty list, a nil error is [None]. *)
Record cacheEntry : Type := { rrs : list string; err : option error }.

#[global] Instance cacheEntry_eq_dec : EqDecision cacheEntry.
Proof. solve_decision. Defined.

(** ** The Bounded Store *)

Module lru.

(** Modelled from the spec: the Bounded Store, which the source imports as
    [github.com/hashicorp/golang-lru] and which is not under src/.  It is a
    fixed-capacity associative container keyed by string, evicting the
    least-recently-used entry when capacity is exceeded, with get,
    insert/update and enumeration of all keys.  The entries are kept in
    recency order, most recently used first. *)
Record Cache : Type := { size : Z; evictList : list (string * cacheEntry) }.

(** Modelled from the spec: the constructor of the Bounded Store.  The
    capacity is a positive integer; for any other size no cache is built
    (the constructor's second result, an error, is what [NewDNSResolver]
    drops). *)
Definition New (size : Z) : option Cache :=
  if (size <=? 0)%Z then None else Some {| size := size; evictList := [] |}.

Fixpoint find (key : string) (l : list (string * cacheEntry)) : option cacheEntry :=
  match l with
  | [] => None
  | (k, v) :: l' => if decide (k = key) then Some v else find key l'
  end.

Fixpoint remove (key : string) (l : list (string * cacheEntry)) : list (string * cacheEntry) :=
  match l with
  | [] => []
  | (k, v) :: l' => if decide (k = key) then l' else (k, v) :: remove key l'
  end.

(** Reading a key without using it (no change of recency). *)
Definition Peek (key : string) (c : Cache) : option cacheEntry :=
  find key (evictList c).

(** Modelled from the spec: get.  A key that is found becomes the most
    recently used one. *)
Definition Get (key : string) (c : Cache) : option cacheEntry * Cache :=
  match find key (evictList c) with
  | Some v => (Some v, {| size := size c; evictList := (key, v) :: remove key (evictList c) |})
  | None => (None, c)
  end.

(** Modelled from the spec: insert/update.  A key already present is
    updated and becomes the most recently used one; a new key is put in
    front and, when the capacity is then exceeded, the least recently used
    entry (the last one) is evicted.  The result tells whether an eviction
    took place. *)
Definition Add (key : string) (v : cacheEntry) (c : Cache) : bool * Cache :=
  match find key (evictList c) with
  | Some _ => (false, {| size := size c; evictList := (key, v) :: remove key (evictList c) |})
  | None =>
      let l := (key, v) :: evictList c in
      if (Z.of_nat (length l) >? size c)%Z
      then (true, {| size := size c; evictList := removelast l |})
      else (false, {| size := size c; evictList := l |})
  end.

(** Modelled from the spec: enumeration of all keys, oldest first. *)
Definition Keys (c : Cache) : list string := rev (map fst (evictList c)).

Definition Len (c : Cache) : nat := length (evictList c).

(** A write through the pointer the cache holds for [key]: the stored value
    changes, the recency order does not. *)
Fixpoint assign (key : string) (v : cacheEntry) (l : list (string * cacheEntry))
  : list (string * cacheEntry) :=
  match l with
  | [] => []
  | (k, w) :: l' => if decide (k = key) then (k, v) :: l' else (k, w) :: assign key v l'
  end.

Definition Assign (key : string) (v : cacheEntry) (c : Cache) : Cache :=
  {| size := size c; evictList := assign key v (evictList c) |}.

(** What every cache built by [New] satisfies, and every operation keeps:
    a positive capacity, never exceeded, and no key twice. *)
Record wf (c : Cache) : Prop := {
  wf_size : (0 < size c)%Z;
  wf_bound : (Z.of_nat (Len c) <= size c)%Z;
  wf_nodup : NoDup (map fst (evictList c))
}.

End lru.

(** ** The critical sections of the Resolver *)

(** [func (r *Resolver) load(key string) (rrs []string, found bool, err error)]:
    the body between [r.mu.RLock()] and [r.mu.RUnlock()], on the cache
    [r.cache] points to. *)
Definition load (key : string) (c : lru.Cache)
  : (list string * bool * option error) * lru.Cache :=
  let '(entry, c') := lru.Get key c in
  match entry with
  | None => (([], false, None), c')
  | Some e => ((rrs e, true, err e), c')
  end.

(** [func (r *Resolver) storeLocked(key string, rrs []string, err error)]:
    an entry that is found is written in place, through the pointer the cache
    holds; otherwise a new entry is added. *)
Definition storeLocked (key : string) (rrs0 : list string) (err0 : option error)
  (c : lru.Cache) : lru.Cache :=
  let '(entry, c') := lru.Get key c in
  match entry with
  | Some _ => lru.Assign key {| rrs := rrs0; err := err0 |} c'
  | None => snd (lru.Add key {| rrs := rrs0; err := err0 |} c')
  end.

(** ** The Flight Coordinator, the shared state and the programs *)

(** [singleflight.Result]: what a waiter receives on its channel.  The payload
    of a flight is what the resolver returned, a [[]string] and an [error]. *)
Record Result : Type := { Val : list string; Err : option error; Shared : bool }.

(** What a caller observes at the [select] of [update]: its own context
    finished first, with [ctx.Err() = e], or the flight's result arrived. *)
Inductive Selected : Type :=
| CtxDone (e : error)
| Received (res : Result).

(** Observable events: an invocation of the [OnCacheMiss] hook, and the calls
    into the underlying resolver with the context and the subject given. *)
Inductive event : Type :=
| EvOnCacheMiss
| EvLookupHost (ctx : Context) (host : string)
| EvLookupAddr (ctx : Context) (addr : string).

#[global] Instance Context_eq_dec : EqDecision Context.
Proof. solve_decision. Defined.

#[global] Instance event_eq_dec : EqDecision event.
Proof. solve_decision. Defined.

Definition nilDeref : string :=
  "runtime error: invalid memory address or nil pointer dereference".

Section Dnscache.

(** The world outside the cache: whatever the underlying resolver and the
    miss hook read and change. *)
Context {W : Type}.

(** [type DNSResolver interface { LookupHost; LookupAddr }]. *)
Record DNSResolver : Type := {
  DNSResolver_LookupHost : Context -> string -> W -> (list string * option error) * W;
  DNSResolver_LookupAddr : Context -> string -> W -> (list string * option error) * W
}.

(** [net.DefaultResolver]. *)
Context (DefaultResolver : DNSResolver).

(** [type Resolver struct]: the fields a user sets ([dnsResolver] is the field
    [Resolver] of the source).  The field [cache] is the one mutable part; it
    lives in the shared [State] below. *)
Record Resolver : Type := {
  Timeout : Z;
  dnsResolver : option DNSResolver;
  OnCacheMiss : option (W -> W)
}.

(** The closure [lookupFunc] returns: which resolver call it makes, and what
    that call answers in a given world. *)
Record Fn : Type := {
  fn_event : event;
  fn_call : W -> (list string * option error) * W
}.

(** Modelled from the spec: the Flight Coordinator, which the source imports
    as [golang.org/x/sync/singleflight] and which is not under src/.  A
    [call] is one execution of a unit of work, with the channels of the
    callers attached to it (the caller that started it first) and the number
    of callers that joined later. *)
Record call : Type := {
  call_key : string;
  call_fn : Fn;
  call_val : option (list string * option error);
  dups : nat;
  chans : list nat
}.

(** Modelled from the spec: the in-flight registry.  [m] holds the in-flight
    marker of each key, [calls] the units of work still running (a forgotten
    one stays here until it completes), [delivered] the results sent on the
    callers' channels and not yet received. *)
Record Group : Type := {
  m : gmap string nat;
  calls : gmap nat call;
  delivered : gmap nat Result;
  fresh : nat
}.

(** Modelled from the spec: the shared flag of an outcome.  The spec gives
    it per caller (true when this caller did not itself trigger the work);
    the flag is kept a parameter of the model, a function of whether the
    receiver started the call and of the number of callers that joined. *)
Context (sharedFlag : bool -> nat -> bool).

(** Modelled from the spec: [run(key, work)], as the source calls it
    ([DoChan]).  With no call in flight for [key] a new one is started and
    marked; otherwise the caller is attached to the one in flight.  The
    caller gets a fresh channel. *)
Definition Group_DoChan (key : string) (fn : Fn) (g : Group) : nat * Group :=
  let ch := fresh g in
  match m g !! key with
  | Some id =>
      (ch, {| m := m g;
              calls := alter (fun c => {| call_key := call_key c; call_fn := call_fn c;
                                          call_val := call_val c; dups := S (dups c);
                                          chans := chans c ++ [ch] |}) id (calls g);
              delivered := delivered g;
              fresh := S (fresh g) |})
  | None =>
      (ch, {| m := <[key := fresh g]> (m g);
              calls := <[fresh g := {| call_key := key; call_fn := fn; call_val := None;
                                       dups := 0; chans := [ch] |}]> (calls g);
              delivered := delivered g;
              fresh := S (fresh g) |})
  end.

(** Modelled from the spec: [forget(key)] clears the in-flight marker
    immediately, without affecting an already-running unit of work. *)
Definition Group_Forget (key : string) (g : Group) : Group :=
  {| m := delete key (m g); calls := calls g; delivered := delivered g; fresh := fresh g |}.

(** The shared state: the cache behind [r.cache] ([None] for a nil pointer),
    the package-level [lookupGroup], the outside world and the trace of
    observable events. *)
Record State : Type := {
  cache : option lru.Cache;
  lookupGroup : Group;
  world : W;
  trace : list event
}.

Definition set_cache (s : State) (c : option lru.Cache) : State :=
  {| cache := c; lookupGroup := lookupGroup s; world := world s; trace := trace s |}.

Definition set_group (s : State) (g : Group) : State :=
  {| cache := cache s; lookupGroup := g; world := world s; trace := trace s |}.

(** *** The steps of a flight *)

(** Modelled from the spec: the unit of work of a call is executed, once, by
    the coordinator.  Here the closure built by [lookupFunc] calls the
    resolver; the call is recorded in the trace and its answer kept until the
    call completes. *)
Definition flight_fn (id : nat) (s : State) : option State :=
  match calls (lookupGroup s) !! id with
  | Some c =>
      match call_val c with
      | Some _ => None
      | None =>
          let '(v, w') := fn_call (call_fn c) (world s) in
          let g := lookupGroup s in
          Some {| cache := cache s;
                  lookupGroup :=
                    {| m := m g;
                       calls := <[id := {| call_key := call_key c; call_fn := call_fn c;
                                           call_val := Some v; dups := dups c;
                                           chans := chans c |}]> (calls g);
                       delivered := delivered g; fresh := fresh g |};
                  world := w';
                  trace := trace s ++ [fn_event (call_fn c)] |}
      end
  | None => None
  end.

(** The result [v] of a call that [n] callers joined, sent on the channels
    [chs] of its callers; [first] tells whether the head of [chs] is the
    caller that started the call. *)
Fixpoint send (v : list string * option error) (n : nat) (first : bool) (chs : list nat)
  (d : gmap nat Result) : gmap nat Result :=
  match chs with
  | [] => d
  | ch :: chs' =>
      send v n false chs'
        (<[ch := {| Val := fst v; Err := snd v; Shared := sharedFlag first n |}]> d)
  end.

(** Modelled from the spec: the call completes.  Its marker is cleared if the
    key is still marked with this call (a forgotten call leaves the marker of
    a later one alone), and the result is sent to every attached caller. *)
Definition flight_done (id : nat) (s : State) : option State :=
  match calls (lookupGroup s) !! id with
  | Some c =>
      match call_val c with
      | None => None
      | Some v =>
          let g := lookupGroup s in
          Some (set_group s
                  {| m := if decide (m g !! call_key c = Some id)
                          then delete (call_key c) (m g) else m g;
                     calls := delete id (calls g);
                     delivered := send v (dups c) true (chans c) (delivered g);
                     fresh := fresh g |})
      end
  | None => None
  end.

(** *** Programs *)

(** The code of a caller, as a tree of the atomic actions it performs; each
    action continues with what the action returned. *)
Inductive Prog (A : Type) : Type :=
| Ret (a : A)
| Panic (msg : string)
| Load (key : string) (k : list string * bool * option error -> Prog A)
| StoreLocked (key : string) (rrs0 : list string) (err0 : option error) (k : Prog A)
| CacheKeys (k : list string -> Prog A)
| CallHook (h : W -> W) (k : Prog A)
| DoChan (key : string) (fn : Fn) (k : nat -> Prog A)
| Forget (key : string) (k : Prog A)
| Select (ctx : Context) (c : nat) (k : Selected -> Prog A).

Arguments Ret {A} a.
Arguments Panic {A} msg.
Arguments Load {A} key k.
Arguments StoreLocked {A} key rrs0 err0 k.
Arguments CacheKeys {A} k.
Arguments CallHook {A} h k.
Arguments DoChan {A} key fn k.
Arguments Forget {A} key k.
Arguments Select {A} ctx c k.

Fixpoint bind {A B : Type} (p : Prog A) (f : A -> Prog B) : Prog B :=
  match p with
  | Ret a => f a
  | Panic msg => Panic msg
  | Load key k => Load key (fun x => bind (k x) f)
  | StoreLocked key rrs0 err0 k => StoreLocked key rrs0 err0 (bind k f)
  | CacheKeys k => CacheKeys (fun x => bind (k x) f)
  | CallHook h k => CallHook h (bind k f)
  | DoChan key fn k => DoChan key fn (fun x => bind (k x) f)
  | Forget key k => Forget key (bind k f)
  | Select ctx c k => Select ctx c (fun x => bind (k x) f)
  end.

(** The steps a thread at [p] can take in state [s]: none when it has
    finished or is blocked, several when a [select] has several ready
    cases.  An action on the cache of a Resolver whose [cache] is nil
    panics. *)
Definition next {A : Type} (p : Prog A) (s : State) : list (Prog A * State) :=
  match p with
  | Ret _ | Panic _ => []
  | Load key k =>
      match cache s with
      | None => [(Panic nilDeref, s)]
      | Some c => let '(x, c') := load key c in [(k x, set_cache s (Some c'))]
      end
  | StoreLocked key rrs0 err0 k =>
      match cache s with
      | None => [(Panic nilDeref, s)]
      | Some c => [(k, set_cache s (Some (storeLocked key rrs0 err0 c)))]
      end
  | CacheKeys k =>
      match cache s with
      | None => [(Panic nilDeref, s)]
      | Some c => [(k (lru.Keys c), s)]
      end
  | CallHook h k =>
      [(k, {| cache := cache s; lookupGroup := lookupGroup s;
              world := h (world s); trace := trace s ++ [EvOnCacheMiss] |})]
  | DoChan key fn k =>
      let '(ch, g) := Group_DoChan key fn (lookupGroup s) in [(k ch, set_group s g)]
  | Forget key k =>
      [(k, set_group s (Group_Forget key (lookupGroup s)))]
  | Select ctx c k =>
      map (fun e => (k (CtxDone e), s)) (ctx_errs ctx) ++
      match delivered (lookupGroup s) !! c with
      | Some res =>
          let g := lookupGroup s in
          [(k (Received res),
            set_group s {| m := m g; calls := calls g;
                           delivered := delete c (delivered g); fresh := fresh g |})]
      | None => []
      end
  end.

(** *** The code of [dnscache.go] *)

(** [func (r *Resolver) getCtx() (ctx context.Context, cancel context.CancelFunc)]. *)
Definition getCtx (r : Resolver) : Context :=
  if (Timeout r >? 0)%Z then WithTimeout (Timeout r) else Background.

(** [func (r *Resolver) lookupFunc(key string) func() (interface{}, error)]:
    [inl] is a panic with its message. *)
Definition lookupFunc (r : Resolver) (key : string) : string + Fn :=
  match key with
  | EmptyString => inl "lookupFunc with empty key"
  | String k0 subject =>
      let resolver :=
        match dnsResolver r with Some d => d | None => DefaultResolver end in
      if decide (k0 = "h"%char) then
        inr {| fn_event := EvLookupHost (getCtx r) subject;
               fn_call := DNSResolver_LookupHost resolver (getCtx r) subject |}
      else if decide (k0 = "r"%char) then
        inr {| fn_event := EvLookupAddr (getCtx r) subject;
               fn_call := DNSResolver_LookupAddr resolver (getCtx r) subject |}
      else inl ("lookupFunc invalid key type: " +:+ key)
  end.

(** Lines 104-110 of [update]: the flight's outcome is stored and returned.
    [rrs1] is the value [rrs] has on entry. *)
Definition update_store (key : string) (res : Result) (rrs1 : list string)
  : Prog (list string * option error) :=
  let err1 := Err res in
  let rrs2 := match err1 with None => Val res | Some _ => rrs1 end in
  StoreLocked key rrs2 err1 (Ret (rrs2, err1)).

(** The two cases of the [select] in [update]. *)
Definition update_select (key : string) (sel : Selected)
  : Prog (list string * option error) :=
  match sel with
  | CtxDone e =>
      if decide (e = DeadlineExceeded)
      then Forget key (Ret ([], Some e))
      else Ret ([], Some e)
  | Received res =>
      if Shared res then
        Load key (fun '(rrs1, found, err1) =>
          if (found : bool) then Ret (rrs1, err1) else update_store key res rrs1)
      else update_store key res []
  end.

(** [func (r *Resolver) update(ctx context.Context, key string) (rrs []string, err error)]. *)
Definition update (r : Resolver) (ctx : Context) (key : string)
  : Prog (list string * option error) :=
  match lookupFunc r key with
  | inl msg => Panic msg
  | inr fn => DoChan key fn (fun c => Select ctx c (update_select key))
  end.

(** [func (r *Resolver) lookup(ctx context.Context, key string) (rrs []string, err error)]. *)
Definition lookup (r : Resolver) (ctx : Context) (key : string)
  : Prog (list string * option error) :=
  Load key (fun '(rrs1, found, err1) =>
    if negb found then
      match OnCacheMiss r with
      | Some h => CallHook h (update r ctx key)
      | None => update r ctx key
      end
    else Ret (rrs1, err1)).

(** The keys under which the two operations cache their subjects. *)
Definition hostKey (host : string) : string := "h" +:+ host.
Definition addrKey (addr : string) : string := "r" +:+ addr.

(** [func (r *Resolver) LookupAddr(ctx context.Context, addr string)]. *)
Definition LookupAddr (r : Resolver) (ctx : Context) (addr : string)
  : Prog (list string * option error) :=
  lookup r ctx (addrKey addr).

(** [func (r *Resolver) LookupHost(ctx context.Context, host string)]. *)
Definition LookupHost (r : Resolver) (ctx : Context) (host : string)
  : Prog (list string * option error) :=
  lookup r ctx (hostKey host).

(** The loop of [Refresh] over the enumerated keys. *)
Fixpoint Refresh_keys (r : Resolver) (keys : list string) : Prog unit :=
  match keys with
  | [] => Ret tt
  | key :: keys' => bind (update r Background key) (fun _ => Refresh_keys r keys')
  end.

(** [func (r *Resolver) Refresh()]. *)
Definition Refresh (r : Resolver) : Prog unit :=
  CacheKeys (Refresh_keys r).

(** [func NewDNSResolver(cacheSize int) *Resolver]: the Resolver and the
    cache its [cache] field points to ([None]: nil).  The error of the
    constructor is dropped. *)
Definition NewDNSResolver (cacheSize : Z) : Resolver * option lru.Cache :=
  let cache0 := lru.New cacheSize in
  ({| Timeout := 0; dnsResolver := None; OnCacheMiss := None |}, cache0).

Definition emptyGroup : Group :=
  {| m := ∅; calls := ∅; delivered := ∅; fresh := 0 |}.

(** The state right after construction, in world [w]. *)
Definition initial (cache0 : option lru.Cache) (w : W) : State :=
  {| cache := cache0; lookupGroup := emptyGroup; world := w; trace := [] |}.

(** *** Running a call on its own *)

(** How a call ends. *)
Inductive Out (A : Type) : Type :=
| Returned (a : A)
| Panicked (msg : string).

Arguments Returned {A} a.
Arguments Panicked {A} msg.

(** The finished program a run ends in. *)
Definition of_out {A : Type} (o : Out A) : Prog A :=
  match o with
  | Returned a => Ret a
  | Panicked msg => Panic msg
  end.

(** A step of the oldest flight still running, if there is one. *)
Definition pending (s : State) : option State :=
  match map_to_list (calls (lookupGroup s)) with
  | (id, _) :: _ =>
      match flight_fn id s with
      | Some s' => Some s'
      | None => flight_done id s
      end
  | [] => None
  end.

(** The schedule of a single caller whose context never finishes while it
    waits: the caller runs until it blocks in [select], then the flights run
    until its result is there.  [None]: out of fuel, or stuck for ever. *)
Fixpoint run (fuel : nat) {A : Type} (p : Prog A) (s : State) : option (Out A * State) :=
  match fuel with
  | O => None
  | S n =>
      match p with
      | Ret a => Some (Returned a, s)
      | Panic msg => Some (Panicked msg, s)
      | Select ctx c k =>
          match delivered (lookupGroup s) !! c with
          | Some res =>
              let g := lookupGroup s in
              run n (k (Received res))
                (set_group s {| m := m g; calls := calls g;
                                delivered := delete c (delivered g); fresh := fresh g |})
          | None =>
              match pending s with
              | Some s' => run n p s'
              | None => None
              end
          end
      | _ =>
          match next p s with
          | (p', s') :: _ => run n p' s'
          | [] => None
          end
      end
  end.

(** *** All callers together *)

(** A goroutine running a call of the API (or what is left of it). *)
Inductive thread : Type :=
| Thread {A : Type} (p : Prog A).

(** One scheduling decision: thread [tid] takes the [alt]-th of the steps it
    can take, or the flight [id] runs its work, or completes. *)
Inductive choice : Type :=
| Own (tid alt : nat)
| FlightFn (id : nat)
| FlightDone (id : nat).

Definition exec1 (ch : choice) (cfg : list thread * State) : option (list thread * State) :=
  let '(pool, s) := cfg in
  match ch with
  | Own tid alt =>
      match pool !! tid with
      | Some (Thread p) =>
          match next p s !! alt with
          | Some (p', s') => Some (<[tid := Thread p']> pool, s')
          | None => None
          end
      | None => None
      end
  | FlightFn id =>
      match flight_fn id s with Some s' => Some (pool, s') | None => None end
  | FlightDone id =>
      match flight_done id s with Some s' => Some (pool, s') | None => None end
  end.

(** An interleaving of the threads and the flights, decision by decision.
    [None]: some decision was not possible where it was taken. *)
Fixpoint exec (sched : list choice) (cfg : list thread * State)
  : option (list thread * State) :=
  match sched with
  | [] => Some cfg
  | ch :: sched' =>
      match exec1 ch cfg with
      | Some cfg' => exec sched' cfg'
      | None => None
      end
  end.

(** *** Notions the statements use *)

(** The program never calls the miss hook, whatever its actions return. *)
Inductive NoHook {A : Type} : Prog A -> Prop :=
| NoHook_Ret a : NoHook (Ret a)
| NoHook_Panic msg : NoHook (Panic msg)
| NoHook_Load key k : (forall x, NoHook (k x)) -> NoHook (Load key k)
| NoHook_StoreLocked key rrs0 err0 k : NoHook k -> NoHook (StoreLocked key rrs0 err0 k)
| NoHook_CacheKeys k : (forall x, NoHook (k x)) -> NoHook (CacheKeys k)
| NoHook_DoChan key fn k : (forall x, NoHook (k x)) -> NoHook (DoChan key fn k)
| NoHook_Forget key k : NoHook k -> NoHook (Forget key k)
| NoHook_Select ctx c k : (forall x, NoHook (k x)) -> NoHook (Select ctx c k).

(** Every step the thread itself takes, from whatever state the others left,
    satisfies [P]. *)
Inductive Always {A : Type} (P : State -> State -> Prop) : Prog A -> Prop :=
| Always_intro p :
    (forall s p' s', In (p', s') (next p s) -> P s s') ->
    (forall s p' s', In (p', s') (next p s) -> Always P p') ->
    Always P p.

(** No lookup is in flight and no result is waiting to be received. *)
Definition quiescent (g : Group) : Prop :=
  m g = ∅ /\ calls g = ∅ /\ delivered g = ∅.

(** The keys the API builds: a kind, ['h'] or ['r'], before the subject. *)
Definition valid_key (key : string) : Prop :=
  exists subject, key = hostKey subject \/ key = addrKey subject.

(** The cache, if there is one, is well formed and has capacity [N]. *)
Definition store_ok (N : Z) (s : State) : Prop :=
  forall c, cache s = Some c -> lru.wf c /\ lru.size c = N.

(** The resolver call a flight for [key] makes. *)
Definition key_events (r : Resolver) (key : string) : list event :=
  match lookupFunc r key with
  | inl _ => []
  | inr fn => [fn_event fn]
  end.

(** *** Notions for the further properties *)

(** Lines 104-107 of [update]: what is kept of a flight's payload.  The
    results are taken only when there is no failure. *)
Definition outcome (v : list string * option error) : cacheEntry :=
  {| rrs := match snd v with None => fst v | Some _ => [] end; err := snd v |}.

(** What one turn of the loop of [Refresh] does to the world and the Store
    when it runs alone: the resolver is called for the key, and the outcome
    is stored, or, when the outcome is marked [shared], the entry is read
    and left as it is. *)
Definition refresh_one (shared : bool) (r : Resolver) (wc : W * lru.Cache) (key : string)
  : W * lru.Cache :=
  match lookupFunc r key with
  | inl _ => wc
  | inr fn =>
      let v := fn_call fn (fst wc) in
      (snd v,
       if shared then snd (lru.Get key (snd wc))
       else storeLocked key (rrs (outcome (fst v))) (err (outcome (fst v))) (snd wc))
  end.

Definition refresh_all (shared : bool) (r : Resolver) (keys : list string)
  (wc : W * lru.Cache) : W * lru.Cache :=
  fold_left (refresh_one shared r) keys wc.

(** Calls of [lookup] made one after the other, each run alone to its end.
    [None]: one of them panicked, got stuck or ran out of fuel. *)
Fixpoint lookup_seq (r : Resolver) (reqs : list (Context * string)) (s : State)
  : option (list (list string * option error) * State) :=
  match reqs with
  | [] => Some ([], s)
  | (ctx, key) :: reqs' =>
      match run 9 (lookup r ctx key) s with
      | Some (Returned o, s1) =>
          match lookup_seq r reqs' s1 with
          | Some (os, s2) => Some (o :: os, s2)
          | None => None
          end
      | _ => None
      end
  end.

(** Every write to the Store the program may do is under a key the API
    builds. *)
Inductive StoresValid {A : Type} : Prog A -> Prop :=
| StoresValid_Ret a : StoresValid (Ret a)
| StoresValid_Panic msg : StoresValid (Panic msg)
| StoresValid_Load key k : (forall x, StoresValid (k x)) -> StoresValid (Load key k)
| StoresValid_StoreLocked key rrs0 err0 k :
    valid_key key -> StoresValid k -> StoresValid (StoreLocked key rrs0 err0 k)
| StoresValid_CacheKeys k : (forall x, StoresValid (k x)) -> StoresValid (CacheKeys k)
| StoresValid_CallHook h k : StoresValid k -> StoresValid (CallHook h k)
| StoresValid_DoChan key fn k : (forall x, StoresValid (k x)) -> StoresValid (DoChan key fn k)
| StoresValid_Forget key k : StoresValid k -> StoresValid (Forget key k)
| StoresValid_Select ctx c k : (forall x, StoresValid (k x)) -> StoresValid (Select ctx c k).

(** A goroutine that is inside a call of the API. *)
Inductive api_thread : thread -> Prop :=
| api_LookupHost r ctx host : api_thread (Thread (LookupHost r ctx host))
| api_LookupAddr r ctx addr : api_thread (Thread (LookupAddr r ctx addr))
| api_Refresh r : api_thread (Thread (Refresh r)).

Definition thread_ok (t : thread) : Prop :=
  match t with
  | Thread p => StoresValid p
  end.

(** Every key of the cache, if there is one, is a key the API builds. *)
Definition keys_valid (s : State) : Prop :=
  forall c, cache s = Some c -> forall k, k ∈ lru.Keys c -> valid_key k.


(** The events that are invocations of the hook. *)
Definition is_hook (ev : event) : bool :=
  match ev with
  | EvOnCacheMiss => true
  | _ => false
  end.

End Dnscache.

Arguments Ret {W A} a.
Arguments Panic {W A} msg.
Arguments Load {W A} key k.
Arguments StoreLocked {W A} key rrs0 err0 k.
Arguments CacheKeys {W A} k.
Arguments CallHook {W A} h k.
Arguments DoChan {W A} key fn k.
Arguments Forget {W A} key k.
Arguments Select {W A} ctx c k.
Arguments Returned {A} a.
Arguments Panicked {A} msg.

(** ** A concrete world, for the scenarios *)

Module Scenario.

(** The world counts the calls made to the resolver. *)
Definition world0 : nat := 0.

(** A resolver that answers every host with one address made of the host
    and fails every reverse lookup. *)
Definition stub : DNSResolver (W := nat) :=
  {| DNSResolver_LookupHost := fun _ host n => (([host +:+ ".addr"], None), S n);
     DNSResolver_LookupAddr := fun _ addr n => (([], Some (ErrorString "no such host")), S n) |}.

(** The shared flag as the spec words it: set for the callers that did not
    start the call. *)
Definition joined (first : bool) (n : nat) : bool := negb first.

Definition r2 : Resolver := fst (NewDNSResolver (W := nat) 2).
Definition s2 : State := initial (snd (NewDNSResolver (W := nat) 2)) world0.

(** The Store after a forward lookup for "a", and then one for "b". *)
Definition c_a : lru.Cache :=
  {| lru.size := 2; lru.evictList := [("ha", {| rrs := ["a.addr"]; err := None |})] |}.

Definition c_ab : lru.Cache :=
  {| lru.size := 2;
     lru.evictList := [("hb", {| rrs := ["b.addr"]; err := None |});
                       ("ha", {| rrs := ["a.addr"]; err := None |})] |}.

(** The state after a forward lookup for "a" from [s2]. *)
Definition s_a : State :=
  {| cache := Some c_a;
     lookupGroup := {| m := ∅; calls := ∅; delivered := ∅; fresh := 1 |};
     world := 1;
     trace := [EvLookupHost Background "a"] |}.

(** The state after forward lookups for "a", then "b". *)
Definition s_ab : State :=
  {| cache := Some c_ab;
     lookupGroup := {| m := ∅; calls := ∅; delivered := ∅; fresh := 2 |};
     world := 2;
     trace := [EvLookupHost Background "a"; EvLookupHost Background "b"] |}.

(** A flight outcome marked shared that carries both names and a failure
    (a reverse lookup whose answer had malformed records). *)
Definition res_both : Result :=
  {| Val := ["one.example."]; Err := Some (ErrorString "DNS response contained records which contain invalid names");
     Shared := true |}.

(** A caller of [update] for the key "r192.0.2.1" waits on channel 0, on
    which [res_both] has been delivered; the Store is empty. *)
Definition s_recv : State :=
  {| cache := Some {| lru.size := 2; lru.evictList := [] |};
     lookupGroup := {| m := ∅; calls := ∅; delivered := {[0 := res_both]}; fresh := 1 |};
     world := 1;
     trace := [EvLookupAddr Background "192.0.2.1"] |}.

(** The same with an entry for the key already in the Store. *)
Definition c_r : lru.Cache :=
  {| lru.size := 2;
     lru.evictList := [("r192.0.2.1", {| rrs := ["two.example."]; err := None |})] |}.

Definition s_recv_hit : State :=
  {| cache := Some c_r;
     lookupGroup := {| m := ∅; calls := ∅; delivered := {[0 := res_both]}; fresh := 1 |};
     world := 1;
     trace := [EvLookupAddr Background "192.0.2.1"] |}.

(** A Resolver with a hook that adds 100 to the world. *)
Definition r_hook : Resolver :=
  {| Timeout := 0; dnsResolver := None; OnCacheMiss := Some (fun n => 100 + n) |}.

(** One caller looks up "a"; the schedule lets it miss, start its flight,
    lets the flight run and complete, and lets the caller receive and store. *)
Definition pool_a : list thread := [Thread (LookupHost stub r2 Background "a")].
Definition sched_a : list choice :=
  [Own 0 0; Own 0 0; FlightFn 0; FlightDone 0; Own 0 0; Own 0 0].

(** The resolver call [lookupFunc] builds for the key of host "a". *)
Definition fn_a : Fn :=
  {| fn_event := EvLookupHost Background "a";
     fn_call := DNSResolver_LookupHost stub Background "a" |}.

(** The empty Store of capacity 2. *)
Definition c_0 : lru.Cache := {| lru.size := 2; lru.evictList := [] |}.


(** An outcome that is not shared. *)
Definition res_own : Result :=
  {| Val := ["three.example."]; Err := None; Shared := false |}.

(** Three lookups, the third for the key of the first. *)
Definition reqs3 : list (Context * string) :=
  [(Background, "ha"); (WithCancel, "r192.0.2.1"); (WithTimeout 5, "ha")].

End Scenario.


(** ** Facts about the Bounded Store *)

Section LruFacts.

Implicit Types (l : list (string * cacheEntry)) (c : lru.Cache) (key k : string).

Lemma find_None key l : lru.find key l = None <-> key ∉ map fst l.
Proof.
  induction l as [|[k v] l IH]; simpl.
  - split; [intros _; apply not_elem_of_nil | done].
  - rewrite not_elem_of_cons. destruct (decide (k = key)) as [->|Hne].
    + split; [done | intros [? _]; done].
    + rewrite IH. split; [intros ?; split; [congruence | done] | intros [_ ?]; done].
Qed.

Lemma find_Some_elem key l v : lru.find key l = Some v -> key ∈ map fst l.
Proof.
  intros H. destruct (decide (key ∈ map fst l)) as [|Hn]; [done|].
  apply find_None in Hn. congruence.
Qed.

Lemma find_remove_ne key k l : k <> key -> lru.find k (lru.remove key l) = lru.find k l.
Proof.
  intros Hne. induction l as [|[k' v] l IH]; simpl; [done|].
  destruct (decide (k' = key)) as [->|Hk].
  - destruct (decide (key = k)); [congruence | done].
  - simpl. destruct (decide (k' = k)); [done | apply IH].
Qed.

Lemma remove_elem key k l : k ∈ map fst (lru.remove key l) -> k ∈ map fst l.
Proof.
  induction l as [|[k' v] l IH]; simpl; [done|].
  destruct (decide (k' = key)) as [->|Hk]; simpl.
  - intros ?. by apply elem_of_cons; right.
  - rewrite !elem_of_cons. intros [->|?]; [by left | right; auto].
Qed.

Lemma remove_NoDup key l : NoDup (map fst l) -> NoDup (map fst (lru.remove key l)).
Proof.
  induction l as [|[k' v] l IH]; simpl; [done|].
  rewrite NoDup_cons. intros [Hn Hd].
  destruct (decide (k' = key)) as [->|Hk]; simpl; [done|].
  apply NoDup_cons. split; [|auto].
  intros ?. apply Hn. by eapply remove_elem.
Qed.

Lemma remove_not_elem key l : NoDup (map fst l) -> key ∉ map fst (lru.remove key l).
Proof.
  induction l as [|[k' v] l IH]; simpl; [intros _; apply not_elem_of_nil|].
  rewrite NoDup_cons. intros [Hn Hd].
  destruct (decide (k' = key)) as [->|Hk]; simpl; [done|].
  rewrite not_elem_of_cons. split; [congruence | auto].
Qed.

Lemma remove_length key l v :
  lru.find key l = Some v -> S (length (lru.remove key l)) = length l.
Proof.
  induction l as [|[k' w] l IH]; simpl; [done|].
  destruct (decide (k' = key)); simpl; [done|]. intros ?. f_equal. auto.
Qed.

Lemma remove_Permutation key l v :
  lru.find key l = Some v -> map fst l ≡ₚ key :: map fst (lru.remove key l).
Proof.
  induction l as [|[k' w] l IH]; simpl; [done|].
  destruct (decide (k' = key)) as [->|Hk]; simpl; [done|].
  intros H. rewrite (IH H). apply Permutation_swap.
Qed.

Lemma removelast_elem (A : Type) (x : A) (xs : list A) : x ∈ removelast xs -> x ∈ xs.
Proof.
  induction xs as [|y xs IH]; simpl; [done|].
  destruct xs as [|z xs]; [intros H; by apply elem_of_nil in H|].
  intros H. change (x ∈ y :: removelast (z :: xs)) in H.
  apply elem_of_cons in H as [->|H]; apply elem_of_cons; [by left | right; auto].
Qed.

Lemma removelast_NoDup (A : Type) (xs : list A) : NoDup xs -> NoDup (removelast xs).
Proof.
  induction xs as [|y xs IH]; simpl; [done|].
  rewrite NoDup_cons. intros [Hn Hd].
  destruct xs as [|z xs]; [constructor|].
  apply NoDup_cons. split; [|auto].
  intros ?. apply Hn. by apply removelast_elem.
Qed.

Lemma removelast_length (A : Type) (xs : list A) :
  length (removelast xs) = pred (length xs).
Proof.
  induction xs as [|y xs IH]; simpl; [done|].
  destruct xs as [|z xs]; [done|]. simpl in *. by rewrite IH.
Qed.

Lemma removelast_map (A B : Type) (f : A -> B) (xs : list A) :
  removelast (map f xs) = map f (removelast xs).
Proof.
  induction xs as [|y xs IH]; simpl; [done|].
  destruct xs as [|z xs]; [done|]. simpl in *. by rewrite IH.
Qed.

(** What [Get] does to a cache: bindings, length and key set are kept. *)
Lemma Get_fst key c : fst (lru.Get key c) = lru.Peek key c.
Proof. unfold lru.Get, lru.Peek. by destruct (lru.find key (lru.evictList c)). Qed.

Lemma Get_Peek key k c : lru.Peek k (snd (lru.Get key c)) = lru.Peek k c.
Proof.
  unfold lru.Get, lru.Peek.
  destruct (lru.find key (lru.evictList c)) as [v|] eqn:Hf; simpl; [|done].
  destruct (decide (key = k)) as [->|Hne]; [done|].
  apply find_remove_ne. congruence.
Qed.

Lemma Get_size key c : lru.size (snd (lru.Get key c)) = lru.size c.
Proof. unfold lru.Get. by destruct (lru.find key (lru.evictList c)). Qed.

Lemma Get_Len key c : lru.Len (snd (lru.Get key c)) = lru.Len c.
Proof.
  unfold lru.Get, lru.Len.
  destruct (lru.find key (lru.evictList c)) as [v|] eqn:Hf; simpl; [|done].
  by eapply remove_length.
Qed.

Lemma Get_Permutation key c :
  map fst (lru.evictList (snd (lru.Get key c))) ≡ₚ map fst (lru.evictList c).
Proof.
  unfold lru.Get.
  destruct (lru.find key (lru.evictList c)) as [v|] eqn:Hf; simpl; [|done].
  symmetry. by eapply remove_Permutation.
Qed.

Lemma Get_wf key c : lru.wf c -> lru.wf (snd (lru.Get key c)).
Proof.
  intros [Hs Hb Hd]. split.
  - by rewrite Get_size.
  - by rewrite Get_Len, Get_size.
  - by rewrite Get_Permutation.
Qed.

(** The list [storeLocked] leaves, case by case. *)
Lemma storeLocked_evictList key rrs0 err0 c :
  lru.evictList (storeLocked key rrs0 err0 c) =
  let e := {| rrs := rrs0; err := err0 |} in
  match lru.Peek key c with
  | Some _ => (key, e) :: lru.remove key (lru.evictList c)
  | None =>
      if (Z.of_nat (S (lru.Len c)) >? lru.size c)%Z
      then removelast ((key, e) :: lru.evictList c)
      else (key, e) :: lru.evictList c
  end.
Proof.
  unfold storeLocked, lru.Get, lru.Peek, lru.Len.
  destruct (lru.find key (lru.evictList c)) as [v|] eqn:Hf; simpl.
  - destruct (decide (key = key)); [done | congruence].
  - unfold lru.Add. simpl. rewrite Hf.
    by destruct (Z.of_nat (S (length (lru.evictList c))) >? lru.size c)%Z.
Qed.

Lemma storeLocked_size key rrs0 err0 c :
  lru.size (storeLocked key rrs0 err0 c) = lru.size c.
Proof.
  unfold storeLocked, lru.Get.
  destruct (lru.find key (lru.evictList c)) as [v|] eqn:Hf; simpl; [done|].
  unfold lru.Add. simpl. rewrite Hf.
  by destruct (Z.of_nat (S (length (lru.evictList c))) >? lru.size c)%Z.
Qed.

Lemma storeLocked_wf key rrs0 err0 c : lru.wf c -> lru.wf (storeLocked key rrs0 err0 c).
Proof.
  intros [Hs Hb Hd]. unfold lru.Len in Hb.
  split; [by rewrite storeLocked_size | |];
    unfold lru.Len; rewrite ?storeLocked_size, storeLocked_evictList;
    cbv zeta; unfold lru.Peek, lru.Len;
    destruct (lru.find key (lru.evictList c)) as [v|] eqn:Hf.
  - simpl. erewrite remove_length by done. done.
  - destruct (Z.gtb_spec (Z.of_nat (S (length (lru.evictList c)))) (lru.size c)).
    + rewrite removelast_length. simpl. lia.
    + done.
  - simpl. apply NoDup_cons. split; [by apply remove_not_elem | by apply remove_NoDup].
  - assert (NoDup (map fst ((key, {| rrs := rrs0; err := err0 |}) :: lru.evictList c))) as Hd'.
    { simpl. apply NoDup_cons. split; [by apply find_None | done]. }
    destruct (Z.of_nat (S (length (lru.evictList c))) >? lru.size c)%Z; [|done].
    rewrite <- removelast_map. by apply removelast_NoDup.
Qed.

(** After [storeLocked] the key holds what was stored. *)
Lemma storeLocked_Peek key rrs0 err0 c :
  (0 < lru.size c)%Z ->
  lru.Peek key (storeLocked key rrs0 err0 c) = Some {| rrs := rrs0; err := err0 |}.
Proof.
  intros Hs. unfold lru.Peek at 1. rewrite storeLocked_evictList. cbv zeta.
  destruct (lru.Peek key c); simpl.
  - destruct (decide (key = key)); [done | congruence].
  - destruct (Z.gtb_spec (Z.of_nat (S (lru.Len c))) (lru.size c)) as [Hgt|Hle].
    + unfold lru.Len in *. destruct (lru.evictList c) as [|x xs]; simpl in *; [lia|].
      destruct (decide (key = key)); [done | congruence].
    + simpl. destruct (decide (key = key)); [done | congruence].
Qed.

Lemma New_wf n c : lru.New n = Some c -> lru.wf c /\ lru.size c = n /\ lru.evictList c = [].
Proof.
  unfold lru.New. destruct (Z.leb_spec n 0); [done|].
  intros [= <-]. split; [|done]. split; simpl; [lia | unfold lru.Len; simpl; lia | constructor].
Qed.

End LruFacts.

(** ** The steps of a caller *)

Section Steps.

Context {W : Type} (DefaultResolver : DNSResolver (W := W)).
Context (sharedFlag : bool -> nat -> bool).

Implicit Types (s : State (W := W)) (c : lru.Cache) (key : string) (r : Resolver (W := W)).

Lemma set_cache_id s c : cache s = Some c -> set_cache s (Some c) = s.
Proof. destruct s; simpl; intros ->; done. Qed.

Lemma load_hit key c e :
  lru.Peek key c = Some e -> load key c = ((rrs e, true, err e), snd (lru.Get key c)).
Proof.
  unfold load, lru.Get, lru.Peek. intros ->. done.
Qed.

Lemma load_miss key c :
  lru.Peek key c = None -> load key c = (([], false, None), c).
Proof.
  unfold load, lru.Get, lru.Peek. intros ->. done.
Qed.

Lemma update_valid r ctx key fn :
  lookupFunc DefaultResolver r key = inr fn ->
  update DefaultResolver r ctx key = DoChan key fn (fun ch => Select ctx ch (update_select key)).
Proof. unfold update. intros ->. done. Qed.

(** After [DoChan] the key is marked in flight. *)
Lemma DoChan_marked key fn (g : Group (W := W)) :
  is_Some (m (snd (Group_DoChan key fn g)) !! key).
Proof.
  unfold Group_DoChan. destruct (m g !! key) as [id|] eqn:Hm; simpl.
  - rewrite Hm. eauto.
  - rewrite lookup_insert_eq. eauto.
Qed.

(** The first step of [update]: the caller joins or starts a flight and
    waits in the [select]; the cache is not looked at. *)
Lemma update_first_step r ctx key fn s :
  lookupFunc DefaultResolver r key = inr fn ->
  next (update DefaultResolver r ctx key) s =
    [(Select ctx (fresh (lookupGroup s)) (update_select key),
      set_group s (snd (Group_DoChan key fn (lookupGroup s))))].
Proof.
  intros Hf. rewrite (update_valid _ _ _ _ Hf). simpl.
  unfold Group_DoChan. by destruct (m (lookupGroup s) !! key).
Qed.

(** In the [select], a context that can finish with [e] lets the caller
    take the first case, whatever the state. *)
Lemma select_ctx_done {A : Type} ctx ch (k : Selected -> Prog A) e s :
  In e (ctx_errs ctx) -> In (k (CtxDone e), s) (next (Select ctx ch k) s).
Proof.
  intros He. simpl. apply in_or_app. left.
  apply (in_map (fun e => (k (CtxDone e), s))). done.
Qed.

(** The first case of the [select], run to its end. *)
Lemma ctx_done_run key e s :
  run sharedFlag 2 (update_select key (CtxDone e)) s =
    Some (Returned ([], Some e),
          if decide (e = DeadlineExceeded)
          then set_group s (Group_Forget key (lookupGroup s)) else s).
Proof.
  unfold update_select. by destruct (decide (e = DeadlineExceeded)).
Qed.

End Steps.

(** ** A caller running on its own *)

Section Runs.

Context {W : Type} (DefaultResolver : DNSResolver (W := W)).
Context (sharedFlag : bool -> nat -> bool).

Implicit Types (s sa sb sc : State (W := W)) (c : lru.Cache).
Implicit Types (key k : string) (r : Resolver (W := W)).

Lemma run_Ret {A : Type} n (a : A) s :
  run sharedFlag (S n) (Ret a) s = Some (Returned a, s).
Proof. done. Qed.

Lemma run_DoChan {A : Type} n key fn (k : nat -> Prog A) s :
  run sharedFlag (S n) (DoChan key fn k) s =
  run sharedFlag n (k (fst (Group_DoChan key fn (lookupGroup s))))
    (set_group s (snd (Group_DoChan key fn (lookupGroup s)))).
Proof. simpl. by destruct (Group_DoChan key fn (lookupGroup s)). Qed.

Lemma run_Select_blocked {A : Type} n ctx ch (k : Selected -> Prog A) s s' :
  delivered (lookupGroup s) !! ch = None ->
  pending sharedFlag s = Some s' ->
  run sharedFlag (S n) (Select ctx ch k) s = run sharedFlag n (Select ctx ch k) s'.
Proof. simpl. intros -> ->. done. Qed.

Lemma run_Select_received {A : Type} n ctx ch (k : Selected -> Prog A) s res :
  delivered (lookupGroup s) !! ch = Some res ->
  run sharedFlag (S n) (Select ctx ch k) s =
  run sharedFlag n (k (Received res))
    (set_group s {| m := m (lookupGroup s); calls := calls (lookupGroup s);
                    delivered := delete ch (delivered (lookupGroup s));
                    fresh := fresh (lookupGroup s) |}).
Proof. simpl. intros ->. done. Qed.

Lemma run_StoreLocked {A : Type} n key rrs0 err0 (k : Prog A) s c :
  cache s = Some c ->
  run sharedFlag (S n) (StoreLocked key rrs0 err0 k) s =
  run sharedFlag n k (set_cache s (Some (storeLocked key rrs0 err0 c))).
Proof. simpl. intros ->. done. Qed.

Lemma run_Load {A : Type} n key (k : list string * bool * option error -> Prog A) s c :
  cache s = Some c ->
  run sharedFlag (S n) (Load key k) s =
  run sharedFlag n (k (fst (load key c))) (set_cache s (Some (snd (load key c)))).
Proof. simpl. intros ->. by destruct (load key c). Qed.

Lemma run_CacheKeys {A : Type} n (k : list string -> Prog A) s c :
  cache s = Some c ->
  run sharedFlag (S n) (CacheKeys k) s = run sharedFlag n (k (lru.Keys c)) s.
Proof. simpl. intros ->. done. Qed.

(** From a quiescent coordinator, a caller that starts a flight and waits
    for it sees the flight call the resolver and complete, and receives its
    outcome: four steps of the schedule. *)
Lemma run_flight {B : Type} ctx key fn s (kk : Selected -> Prog B) fuel :
  quiescent (lookupGroup s) ->
  run sharedFlag (4 + fuel) (DoChan key fn (fun ch => Select ctx ch kk)) s =
  run sharedFlag fuel
    (kk (Received {| Val := fst (fst (fn_call fn (world s)));
                     Err := snd (fst (fn_call fn (world s)));
                     Shared := sharedFlag true 0 |}))
    {| cache := cache s;
       lookupGroup := {| m := ∅; calls := ∅; delivered := ∅;
                         fresh := S (fresh (lookupGroup s)) |};
       world := snd (fn_call fn (world s));
       trace := trace s ++ [fn_event fn] |}.
Proof.
  intros (Hm & Hc & Hd).
  destruct s as [c0 [m0 calls0 del0 n] w tr]. simpl in Hm, Hc, Hd. subst m0 calls0 del0.
  change (4 + fuel) with (S (S (S (S fuel)))).
  rewrite run_DoChan.
  unfold Group_DoChan, set_group. cbn [m calls delivered fresh lookupGroup].
  rewrite lookup_empty. cbn [fst snd cache world trace lookupGroup].
  rewrite !insert_empty.
  erewrite run_Select_blocked; cycle 1.
  { done. }
  { unfold pending. cbn [lookupGroup calls]. rewrite map_to_list_singleton.
    unfold flight_fn. cbn [lookupGroup calls]. rewrite lookup_singleton_eq.
    cbn [call_val call_fn world]. rewrite (surjective_pairing (fn_call fn w)).
    cbn [call_key dups chans cache m delivered fresh trace]. reflexivity. }
  rewrite insert_singleton_eq.
  erewrite run_Select_blocked; cycle 1.
  { done. }
  { unfold pending. cbn [lookupGroup calls]. rewrite map_to_list_singleton.
    unfold flight_fn, flight_done, set_group. cbn [lookupGroup calls].
    rewrite lookup_singleton_eq.
    cbn [call_val call_key dups chans m delivered fresh cache world trace lookupGroup].
    rewrite lookup_singleton_eq. rewrite decide_True by done.
    rewrite !delete_singleton_eq. cbn [send]. reflexivity. }
  erewrite run_Select_received; cycle 1.
  { cbn [lookupGroup delivered]. apply lookup_insert_eq. }
  unfold set_group. cbn [lookupGroup m calls delivered fresh cache world trace fst snd].
  rewrite delete_insert_eq, delete_empty. reflexivity.
Qed.

Lemma lookupFunc_hostKey r subject :
  lookupFunc DefaultResolver r (hostKey subject) =
  inr {| fn_event := EvLookupHost (getCtx r) subject;
         fn_call := DNSResolver_LookupHost
                      (match dnsResolver r with Some d => d | None => DefaultResolver end)
                      (getCtx r) subject |}.
Proof. done. Qed.

Lemma lookupFunc_addrKey r subject :
  lookupFunc DefaultResolver r (addrKey subject) =
  inr {| fn_event := EvLookupAddr (getCtx r) subject;
         fn_call := DNSResolver_LookupAddr
                      (match dnsResolver r with Some d => d | None => DefaultResolver end)
                      (getCtx r) subject |}.
Proof. done. Qed.

Lemma lookupFunc_valid r key :
  valid_key key -> exists fn, lookupFunc DefaultResolver r key = inr fn.
Proof.
  intros [subject [->| ->]]; eexists; [apply lookupFunc_hostKey | apply lookupFunc_addrKey].
Qed.

Lemma storeLocked_present_Permutation key rrs0 err0 c :
  is_Some (lru.Peek key c) ->
  map fst (lru.evictList (storeLocked key rrs0 err0 c)) ≡ₚ map fst (lru.evictList c).
Proof.
  intros [v Hv]. rewrite storeLocked_evictList. cbv zeta. rewrite Hv. simpl.
  symmetry. by eapply remove_Permutation.
Qed.

(** One [update] of a key the Store holds, from a quiescent coordinator:
    five steps of the schedule, one resolver call, the same keys after. *)
Lemma run_update_present r ctx key fn s c :
  lookupFunc DefaultResolver r key = inr fn ->
  quiescent (lookupGroup s) ->
  cache s = Some c ->
  lru.wf c ->
  is_Some (lru.Peek key c) ->
  exists out s' c',
    (forall (B : Type) (k : list string * option error -> Prog B) fuel,
       run sharedFlag (5 + fuel) (bind (update DefaultResolver r ctx key) k) s =
       run sharedFlag fuel (k out) s') /\
    cache s' = Some c' /\ lru.wf c' /\ quiescent (lookupGroup s') /\
    trace s' = trace s ++ [fn_event fn] /\
    map fst (lru.evictList c') ≡ₚ map fst (lru.evictList c) /\
    lru.size c' = lru.size c.
Proof.
  intros Hf Hq Hc Hwf [e He].
  destruct (sharedFlag true 0) eqn:Hsh.
  - eexists _, _, (snd (lru.Get key c)). split; [|split; [|split; [|split; [|split; [|split]]]]].
    + intros B k fuel. change (5 + fuel) with (4 + S fuel).
      rewrite (update_valid _ _ _ _ _ Hf). cbn [bind].
      rewrite (run_flight _ _ _ _ _ _ Hq).
      unfold update_select. cbn [Shared]. rewrite Hsh. cbn [bind].
      erewrite run_Load by (cbn [cache]; exact Hc).
      rewrite (load_hit _ _ _ He). cbn [fst snd bind]. reflexivity.
    + done.
    + by apply Get_wf.
    + done.
    + done.
    + apply Get_Permutation.
    + apply Get_size.
  - eexists _, _, _. split; [|split; [|split; [|split; [|split; [|split]]]]].
    + intros B k fuel. change (5 + fuel) with (4 + S fuel).
      rewrite (update_valid _ _ _ _ _ Hf). cbn [bind].
      rewrite (run_flight _ _ _ _ _ _ Hq).
      unfold update_select, update_store. cbn [Shared]. rewrite Hsh. cbn [bind].
      erewrite run_StoreLocked by (cbn [cache]; exact Hc).
      reflexivity.
    + done.
    + by apply storeLocked_wf.
    + done.
    + done.
    + apply storeLocked_present_Permutation. eauto.
    + apply storeLocked_size.
Qed.

(** The loop of [Refresh], over keys the Store holds. *)
Lemma run_Refresh_keys r keys : forall s c,
  cache s = Some c ->
  lru.wf c ->
  quiescent (lookupGroup s) ->
  (forall k, k ∈ keys -> valid_key k /\ k ∈ map fst (lru.evictList c)) ->
  exists s' c',
    (forall extra,
       run sharedFlag (5 * length keys + S extra) (Refresh_keys DefaultResolver r keys) s =
       Some (Returned tt, s')) /\
    cache s' = Some c' /\ lru.wf c' /\ quiescent (lookupGroup s') /\
    trace s' = trace s ++ flat_map (key_events DefaultResolver r) keys /\
    map fst (lru.evictList c') ≡ₚ map fst (lru.evictList c) /\
    lru.size c' = lru.size c.
Proof.
  induction keys as [|key keys IH]; intros s c Hc Hwf Hq Hkeys.
  - exists s, c. simpl. rewrite app_nil_r. done.
  - destruct (Hkeys key) as [Hv Hin]; [by left|].
    destruct (lookupFunc_valid r key Hv) as [fn Hf].
    assert (is_Some (lru.Peek key c)) as Hp.
    { destruct (lru.Peek key c) eqn:E; [eauto|]. by apply find_None in E. }
    destruct (run_update_present r Background key fn s c Hf Hq Hc Hwf Hp)
      as (out & s1 & c1 & Hrun & Hc1 & Hwf1 & Hq1 & Htr1 & Hperm1 & Hsz1).
    destruct (IH s1 c1 Hc1 Hwf1 Hq1) as (s2 & c2 & Hrun2 & Hc2 & Hwf2 & Hq2 & Htr2 & Hperm2 & Hsz2).
    { intros k Hk. destruct (Hkeys k) as [? ?]; [by right|]. split; [done|].
      by rewrite Hperm1. }
    exists s2, c2. split; [|split; [done|split; [done|split; [done|split; [|split]]]]].
    + intros extra. cbn [Refresh_keys length].
      replace (5 * S (length keys) + S extra) with (5 + (5 * length keys + S extra)) by lia.
      rewrite Hrun. apply Hrun2.
    + rewrite Htr2, Htr1. cbn [flat_map]. unfold key_events at 2. rewrite Hf.
      by rewrite <- app_assoc.
    + by rewrite Hperm2.
    + congruence.
Qed.

(** More fuel does not change how a run ends. *)
Lemma run_mono {A : Type} n : forall n' (p : Prog A) s x,
  run sharedFlag n p s = Some x -> n <= n' -> run sharedFlag n' p s = Some x.
Proof.
  induction n as [|n IH]; intros n' p s x Hrun Hle; [done|].
  destruct n' as [|n']; [lia|].
  assert (n <= n') as Hle' by lia.
  destruct p; simpl in *; try done;
    repeat match goal with
    | H : context [match ?t with _ => _ end] |- _ => destruct t eqn:?; try done
    end; eauto.
Qed.

(** A lookup that misses, from a quiescent coordinator: the hook is called
    if there is one, the resolver is called once, and the outcome is stored
    and returned. *)
Lemma run_lookup_miss r ctx key fn s c :
  cache s = Some c ->
  quiescent (lookupGroup s) ->
  lru.Peek key c = None ->
  lookupFunc DefaultResolver r key = inr fn ->
  let w1 := match OnCacheMiss r with Some h => h (world s) | None => world s end in
  let v := fst (fn_call fn w1) in
  let rrs2 := match snd v with None => fst v | Some _ => [] end in
  exists s',
    (forall extra, run sharedFlag (9 + extra) (lookup DefaultResolver r ctx key) s =
                   Some (Returned (rrs2, snd v), s')) /\
    cache s' = Some (storeLocked key rrs2 (snd v) c) /\
    quiescent (lookupGroup s') /\
    world s' = snd (fn_call fn w1) /\
    trace s' = trace s ++ match OnCacheMiss r with Some _ => [EvOnCacheMiss] | None => [] end
                       ++ [fn_event fn].
Proof.
  intros Hc Hq Hp Hf w1 v rrs2.
  pose (s1 := {| cache := cache s; lookupGroup := lookupGroup s; world := w1;
                 trace := trace s ++ match OnCacheMiss r with
                                     | Some _ => [EvOnCacheMiss] | None => [] end |}).
  assert (forall fuel, exists n, n <= 2 /\
            run sharedFlag (n + fuel) (lookup DefaultResolver r ctx key) s =
            run sharedFlag fuel (update DefaultResolver r ctx key) s1) as Hstart.
  { intros fuel. unfold lookup, s1, w1.
    destruct (OnCacheMiss r) as [h|].
    - exists 2. split; [lia|]. change (2 + fuel) with (S (S fuel)).
      erewrite run_Load by exact Hc. rewrite (load_miss _ _ Hp). cbn [fst snd negb].
      rewrite (set_cache_id _ _ Hc). reflexivity.
    - exists 1. split; [lia|]. change (1 + fuel) with (S fuel).
      erewrite run_Load by exact Hc. rewrite (load_miss _ _ Hp). cbn [fst snd negb].
      rewrite (set_cache_id _ _ Hc), app_nil_r. destruct s; reflexivity. }
  assert (exists s', 
            run sharedFlag 7 (update DefaultResolver r ctx key) s1 =
              Some (Returned (rrs2, snd v), s') /\
            cache s' = Some (storeLocked key rrs2 (snd v) c) /\
            quiescent (lookupGroup s') /\
            world s' = snd (fn_call fn w1) /\
            trace s' = trace s1 ++ [fn_event fn]) as (s' & Hrun & Hrest).
  { rewrite (update_valid _ _ _ _ _ Hf).
    assert (quiescent (lookupGroup s1)) as Hq1 by exact Hq.
    destruct (sharedFlag true 0) eqn:Hsh.
    - eexists. split.
      + change 7 with (4 + 3). rewrite (run_flight _ _ _ _ _ _ Hq1).
        unfold update_select. cbn [Shared]. rewrite Hsh.
        erewrite run_Load by (cbn [cache]; exact Hc).
        rewrite (load_miss _ _ Hp). cbn [fst snd]. unfold update_store.
        erewrite run_StoreLocked by (cbn [cache set_cache]; reflexivity).
        cbn [Err Val world s1]. apply run_Ret.
      + done.
    - eexists. split.
      + change 7 with (4 + 3). rewrite (run_flight _ _ _ _ _ _ Hq1).
        unfold update_select. cbn [Shared]. rewrite Hsh. unfold update_store.
        erewrite run_StoreLocked by (cbn [cache]; exact Hc).
        cbn [Err Val world s1]. apply run_Ret.
      + done. }
  exists s'. split; [|by rewrite app_assoc].
  intros extra. destruct (Hstart 7) as (n & Hn & Hn').
  apply run_mono with (n := n + 7); [|lia]. by rewrite Hn'.
Qed.

End Runs.

(** ** Keys, hooks and interleavings *)

Section Facts.

Context {W : Type} (DefaultResolver : DNSResolver (W := W)).
Context (sharedFlag : bool -> nat -> bool).

Implicit Types (s sa sb sc : State (W := W)) (c : lru.Cache).
Implicit Types (key k : string) (r : Resolver (W := W)).
Implicit Types (l : list (string * cacheEntry)).

Lemma Keys_elem k c : k ∈ lru.Keys c <-> is_Some (lru.Peek k c).
Proof.
  unfold lru.Keys, lru.Peek. rewrite list_elem_of_In, <- in_rev, <- list_elem_of_In.
  destruct (lru.find k (lru.evictList c)) as [v|] eqn:Hf.
  - split; [eauto | intros _; by eapply find_Some_elem].
  - apply find_None in Hf. split; [done | intros [? ?]; done].
Qed.

Lemma Keys_NoDup c : lru.wf c -> NoDup (lru.Keys c).
Proof. intros [_ _ Hd]. unfold lru.Keys. by rewrite <- Permutation_rev. Qed.

Lemma Keys_Permutation c c' :
  map fst (lru.evictList c') ≡ₚ map fst (lru.evictList c) -> lru.Keys c' ≡ₚ lru.Keys c.
Proof. intros H. unfold lru.Keys. by rewrite <- !Permutation_rev. Qed.

Lemma Keys_length c : length (lru.Keys c) = lru.Len c.
Proof. unfold lru.Keys, lru.Len. by rewrite length_rev, length_map. Qed.

Lemma rev_removelast (A : Type) (xs : list A) : rev (removelast xs) = tail (rev xs).
Proof.
  destruct xs as [|x xs] using rev_ind; [done|].
  by rewrite removelast_last, rev_unit.
Qed.

(** Storing a key the Store does not hold: with room left the key becomes the
    newest one; in a full Store the oldest key is dropped as well. *)
Lemma storeLocked_absent_Keys key rrs0 err0 c :
  lru.wf c ->
  lru.Peek key c = None ->
  lru.Keys (storeLocked key rrs0 err0 c) =
  (if decide (Z.of_nat (lru.Len c) = lru.size c) then tail (lru.Keys c) else lru.Keys c)
  ++ [key].
Proof.
  intros [Hs Hb _] Hp. unfold lru.Keys. rewrite storeLocked_evictList. cbv zeta.
  rewrite Hp.
  destruct (Z.gtb_spec (Z.of_nat (S (lru.Len c))) (lru.size c)) as [Hgt|Hle].
  - rewrite decide_True by lia.
    unfold lru.Len in *. destruct (lru.evictList c) as [|x xs] eqn:El; [simpl in *; lia|].
    change (removelast ((key, {| rrs := rrs0; err := err0 |}) :: x :: xs))
      with ((key, {| rrs := rrs0; err := err0 |}) :: removelast (x :: xs)).
    cbn [map fst rev]. f_equal. rewrite <- removelast_map. apply rev_removelast.
  - rewrite decide_False by lia. done.
Qed.

Lemma find_removelast k l e :
  lru.find k (removelast l) = Some e -> lru.find k l = Some e.
Proof.
  induction l as [|[k' v] l IH]; [done|].
  destruct l as [|x l]; [done|].
  change (removelast ((k', v) :: x :: l)) with ((k', v) :: removelast (x :: l)).
  cbn [lru.find]. destruct (decide (k' = k)); [done | apply IH].
Qed.

(** An entry found under another key after a [storeLocked] was there before. *)
Lemma storeLocked_Peek_other key k rrs0 err0 c e :
  k <> key ->
  lru.Peek k (storeLocked key rrs0 err0 c) = Some e ->
  lru.Peek k c = Some e.
Proof.
  intros Hne. unfold lru.Peek at 1. rewrite storeLocked_evictList. cbv zeta.
  destruct (lru.Peek key c) eqn:Hp.
  - cbn [lru.find]. rewrite decide_False by congruence. by rewrite find_remove_ne.
  - destruct (Z.of_nat (S (lru.Len c)) >? lru.size c)%Z.
    + intros H. apply find_removelast in H. revert H.
      cbn [lru.find]. by rewrite decide_False by congruence.
    + cbn [lru.find]. by rewrite decide_False by congruence.
Qed.

(** *** Programs without the hook *)

Lemma NoHook_bind {A B : Type} (p : Prog (W := W) A) (f : A -> Prog (W := W) B) :
  NoHook p -> (forall a, NoHook (f a)) -> NoHook (bind p f).
Proof. intros Hp Hf. induction Hp; simpl; try constructor; auto. Qed.

Lemma NoHook_update_store key res rrs1 : NoHook (update_store (W := W) key res rrs1).
Proof. unfold update_store. constructor. constructor. Qed.

Lemma NoHook_update_select key sel : NoHook (update_select (W := W) key sel).
Proof.
  destruct sel as [e|res]; simpl.
  - destruct (decide (e = DeadlineExceeded)); [constructor|]; constructor.
  - destruct (Shared res); [|apply NoHook_update_store].
    constructor. intros [[rrs1 found] err1].
    destruct found; [constructor | apply NoHook_update_store].
Qed.

Lemma NoHook_update r ctx key : NoHook (update DefaultResolver r ctx key).
Proof.
  unfold update. destruct (lookupFunc DefaultResolver r key); constructor.
  intros ch. constructor. apply NoHook_update_select.
Qed.

Lemma NoHook_Refresh_keys r keys : NoHook (Refresh_keys DefaultResolver r keys).
Proof.
  induction keys as [|key keys IH]; simpl; [constructor|].
  apply NoHook_bind; [apply NoHook_update | done].
Qed.

Lemma NoHook_next {A : Type} (p p' : Prog (W := W) A) s s' :
  NoHook p -> In (p', s') (next p s) ->
  NoHook p' /\ trace s' = trace s /\ world s' = world s.
Proof.
  intros Hp. destruct Hp as [a|msg|key k Hk|key rrs0 err0 k Hk|k Hk|key fn k Hk|key k Hk|ctx c k Hk];
    simpl; try done.
  - destruct (cache s) as [c|]; [destruct (load key c) as [x c'] eqn:E|];
      intros [[= <- <-]|[]]; (split; [|done]); [apply Hk | constructor].
  - destruct (cache s) as [c|]; intros [[= <- <-]|[]]; (split; [|done]);
      [apply Hk | constructor].
  - destruct (cache s) as [c|]; intros [[= <- <-]|[]]; (split; [|done]);
      [apply Hk | constructor].
  - destruct (Group_DoChan key fn (lookupGroup s)) as [ch g].
    intros [[= <- <-]|[]]. split; [apply Hk | done].
  - intros [[= <- <-]|[]]. split; [apply Hk | done].
  - intros Hin. apply in_app_or in Hin as [Hin|Hin].
    + apply in_map_iff in Hin as (e & [= <- <-] & _). split; [apply Hk | done].
    + destruct (delivered (lookupGroup s) !! c) as [res|]; [|done].
      destruct Hin as [[= <- <-]|[]]. split; [apply Hk | done].
Qed.

(** A program without the hook never touches the trace or the world by a
    step of its own. *)
Lemma NoHook_Always {A : Type} (p : Prog (W := W) A) :
  NoHook p -> Always (fun s s' => trace s' = trace s /\ world s' = world s) p.
Proof.
  assert (forall (q : Prog (W := W) A),
            NoHook q -> forall s q' s', In (q', s') (next q s) ->
            trace s' = trace s /\ world s' = world s) as Hstep.
  { intros q Hq s q' s' Hin. by destruct (NoHook_next _ _ _ _ Hq Hin) as (_ & ? & ?). }
  induction p as [a|msg|key k IH|key rrs0 err0 k IH|k IH|h k IH|key fn k IH|key k IH|ctx c k IH];
    intros Hp; constructor; try (by apply Hstep); intros s p' s' Hin.
  - done.
  - done.
  - inversion Hp as [ | |? ? Hk| | | | | ]; subst. simpl in Hin.
    destruct (cache s) as [c0|]; [destruct (load key c0) as [x c'] eqn:E|];
      destruct Hin as [[= <- <-]|[]]; [by apply IH|].
    constructor; intros ? ? ? [].
  - inversion Hp as [ | | |? ? ? ? Hk| | | | ]; subst. simpl in Hin.
    destruct (cache s) as [c0|]; destruct Hin as [[= <- <-]|[]]; [by apply IH|].
    constructor; intros ? ? ? [].
  - inversion Hp as [ | | | |? Hk| | | ]; subst. simpl in Hin.
    destruct (cache s) as [c0|]; destruct Hin as [[= <- <-]|[]]; [by apply IH|].
    constructor; intros ? ? ? [].
  - inversion Hp.
  - inversion Hp as [ | | | | |? ? ? Hk| | ]; subst. simpl in Hin.
    destruct (Group_DoChan key fn (lookupGroup s)) as [ch g].
    destruct Hin as [[= <- <-]|[]]. by apply IH.
  - inversion Hp as [ | | | | | |? ? Hk| ]; subst. simpl in Hin.
    destruct Hin as [[= <- <-]|[]]. by apply IH.
  - inversion Hp as [ | | | | | | |? ? ? Hk]; subst. simpl in Hin.
    apply in_app_or in Hin as [Hin|Hin].
    + apply in_map_iff in Hin as (e & [= <- <-] & _). by apply IH.
    + destruct (delivered (lookupGroup s) !! c) as [res|]; [|done].
      destruct Hin as [[= <- <-]|[]]. by apply IH.
Qed.

(** *** What every interleaving keeps *)

Lemma load_snd key c : snd (load key c) = snd (lru.Get key c).
Proof. unfold load. destruct (lru.Get key c) as [[e|] c']; done. Qed.

Lemma next_store_ok {A : Type} N (p p' : Prog (W := W) A) s s' :
  In (p', s') (next p s) -> store_ok N s -> store_ok N s'.
Proof.
  intros Hin Hok. destruct p; simpl in Hin; try done.
  - destruct (cache s) as [c|] eqn:Hc.
    + pose proof (load_snd key c) as Hl. destruct (load key c) as [x c'].
      destruct Hin as [[= <- <-]|[]]. intros c2 [= <-]. simpl in Hl. subst c'.
      destruct (Hok c Hc) as [Hwf Hsz]. split; [by apply Get_wf|].
      by rewrite Get_size.
    + by destruct Hin as [[= <- <-]|[]].
  - destruct (cache s) as [c|] eqn:Hc.
    + destruct Hin as [[= <- <-]|[]]. intros c2 [= <-].
      destruct (Hok c Hc) as [Hwf Hsz]. split; [by apply storeLocked_wf|].
      by rewrite storeLocked_size.
    + by destruct Hin as [[= <- <-]|[]].
  - destruct (cache s) as [c|] eqn:Hc; by destruct Hin as [[= <- <-]|[]].
  - by destruct Hin as [[= <- <-]|[]].
  - destruct (Group_DoChan key fn (lookupGroup s)) as [ch g].
    by destruct Hin as [[= <- <-]|[]].
  - by destruct Hin as [[= <- <-]|[]].
  - apply in_app_or in Hin as [Hin|Hin].
    + by apply in_map_iff in Hin as (e & [= <- <-] & _).
    + destruct (delivered (lookupGroup s) !! c) as [res|]; [|done].
      by destruct Hin as [[= <- <-]|[]].
Qed.

Lemma flight_fn_cache id s s' : flight_fn id s = Some s' -> cache s' = cache s.
Proof.
  unfold flight_fn. destruct (calls (lookupGroup s) !! id) as [cl|]; [|done].
  destruct (call_val cl); [done|]. destruct (fn_call (call_fn cl) (world s)).
  by intros [= <-].
Qed.

Lemma flight_done_cache id s s' :
  flight_done sharedFlag id s = Some s' -> cache s' = cache s.
Proof.
  unfold flight_done. destruct (calls (lookupGroup s) !! id) as [cl|]; [|done].
  destruct (call_val cl); [|done]. by intros [= <-].
Qed.

Lemma exec1_store_ok N ch pool s pool' s' :
  exec1 sharedFlag ch (pool, s) = Some (pool', s') -> store_ok N s -> store_ok N s'.
Proof.
  destruct ch as [tid alt|id|id]; simpl.
  - destruct (pool !! tid) as [[A p]|]; [|done].
    destruct (next p s !! alt) as [[p' s1]|] eqn:Hn; [|done].
    intros [= <- <-]. eapply next_store_ok.
    apply list_elem_of_In, list_elem_of_lookup. eauto.
  - destruct (flight_fn id s) as [s1|] eqn:Hf; [|done]. intros [= <- <-] Hok c Hc.
    apply Hok. by rewrite <- (flight_fn_cache _ _ _ Hf).
  - destruct (flight_done sharedFlag id s) as [s1|] eqn:Hf; [|done].
    intros [= <- <-] Hok c Hc.
    apply Hok. by rewrite <- (flight_done_cache _ _ _ Hf).
Qed.

Lemma exec_store_ok N sched : forall pool s pool' s',
  exec sharedFlag sched (pool, s) = Some (pool', s') -> store_ok N s -> store_ok N s'.
Proof.
  induction sched as [|ch sched IH]; intros pool s pool' s'; cbn [exec].
  - by intros [= <- <-].
  - destruct (exec1 sharedFlag ch (pool, s)) as [[pool1 s1]|] eqn:H1; [|done].
    intros Hex Hok. eapply IH; [exact Hex|]. eapply exec1_store_ok; [exact H1 | exact Hok].
Qed.

Lemma initial_store_ok N (w : W) : store_ok N (initial (lru.New N) w).
Proof. intros c Hc. simpl in Hc. apply New_wf in Hc as (Hwf & Hsz & _). by split. Qed.

(** *** The schedule of [run] is one of the interleavings *)

Lemma exec_cons ch sched (cfg cfg' cfg'' : list (thread (W := W)) * State (W := W)) :
  exec1 sharedFlag ch cfg = Some cfg' ->
  exec sharedFlag sched cfg' = Some cfg'' ->
  exec sharedFlag (ch :: sched) cfg = Some cfg''.
Proof. intros H1 H2. cbn [exec]. by rewrite H1. Qed.

Lemma exec1_own_first {A : Type} (p p' : Prog (W := W) A) s s' rest :
  next p s = (p', s') :: rest ->
  exec1 sharedFlag (Own 0 0) ([Thread p], s) = Some ([Thread p'], s').
Proof. intros H. simpl. by rewrite H. Qed.

Lemma pending_exec1 s s' (pool : list (thread (W := W))) :
  pending sharedFlag s = Some s' ->
  exists ch, exec1 sharedFlag ch (pool, s) = Some (pool, s').
Proof.
  unfold pending. destruct (map_to_list (calls (lookupGroup s))) as [|[id cl] ?]; [done|].
  destruct (flight_fn id s) as [s1|] eqn:Hfn.
  - intros [= <-]. exists (FlightFn id). simpl. by rewrite Hfn.
  - intros Hd. exists (FlightDone id). simpl. by rewrite Hd.
Qed.

Theorem run_exec {A : Type} fuel : forall (p : Prog (W := W) A) s o s',
  run sharedFlag fuel p s = Some (o, s') ->
  exists sched, exec sharedFlag sched ([Thread p], s) = Some ([Thread (of_out o)], s').
Proof.
  induction fuel as [|n IH]; intros p s o s' Hrun; [done|].
  assert (forall p1 s1 rest,
            next p s = (p1, s1) :: rest ->
            run sharedFlag n p1 s1 = Some (o, s') ->
            exists sched, exec sharedFlag sched ([Thread p], s) = Some ([Thread (of_out o)], s'))
    as Hown.
  { intros p1 s1 rest Hn Hr. destruct (IH _ _ _ _ Hr) as [sched Hs].
    exists (Own 0 0 :: sched). eapply exec_cons; [by eapply exec1_own_first | done]. }
  destruct p; cbn [run] in Hrun.
  - injection Hrun as <- <-. by exists [].
  - injection Hrun as <- <-. by exists [].
  - destruct (next (Load key k) s) as [|[p1 s1] rest] eqn:Hn; [done|]. eauto.
  - destruct (next (StoreLocked key rrs0 err0 p) s) as [|[p1 s1] rest] eqn:Hn; [done|]. eauto.
  - destruct (next (CacheKeys k) s) as [|[p1 s1] rest] eqn:Hn; [done|]. eauto.
  - destruct (next (CallHook h p) s) as [|[p1 s1] rest] eqn:Hn; [done|]. eauto.
  - destruct (next (DoChan key fn k) s) as [|[p1 s1] rest] eqn:Hn; [done|]. eauto.
  - destruct (next (Forget key p) s) as [|[p1 s1] rest] eqn:Hn; [done|]. eauto.
  - destruct (delivered (lookupGroup s) !! c) as [res|] eqn:Hd.
    + destruct (IH _ _ _ _ Hrun) as [sched Hs].
      exists (Own 0 (length (ctx_errs ctx)) :: sched). eapply exec_cons; [|exact Hs].
      simpl. rewrite Hd.
      rewrite lookup_app_r by (rewrite length_map; lia).
      rewrite length_map, Nat.sub_diag. reflexivity.
    + destruct (pending sharedFlag s) as [s1|] eqn:Hp; [|done].
      destruct (IH _ _ _ _ Hrun) as [sched Hs].
      destruct (pending_exec1 s s1 [Thread (Select ctx c k)] Hp) as [ch Hch].
      exists (ch :: sched). by eapply exec_cons.
Qed.

(** *** A refresh pass that runs alone *)

Lemma key_events_valid r k :
  valid_key k ->
  exists fn, lookupFunc DefaultResolver r k = inr fn /\
             key_events DefaultResolver r k = [fn_event fn] /\
             fn_event fn <> EvOnCacheMiss.
Proof.
  intros [subject [->| ->]]; eexists; (split; [|split]);
    [apply lookupFunc_hostKey | done | done | apply lookupFunc_addrKey | done | done].
Qed.

Lemma Refresh_run_alone r s c :
  cache s = Some c ->
  lru.wf c ->
  quiescent (lookupGroup s) ->
  (forall k, k ∈ lru.Keys c -> valid_key k) ->
  exists s' c',
    (forall extra,
       run sharedFlag (5 * lru.Len c + 2 + extra) (Refresh DefaultResolver r) s =
       Some (Returned tt, s')) /\
    cache s' = Some c' /\
    lru.Keys c' ≡ₚ lru.Keys c /\
    lru.Len c' <= lru.Len c /\
    trace s' = trace s ++ flat_map (key_events DefaultResolver r) (lru.Keys c) /\
    length (trace s') = length (trace s) + lru.Len c /\
    quiescent (lookupGroup s').
Proof.
  intros Hc Hwf Hq Hvalid.
  destruct (run_Refresh_keys DefaultResolver sharedFlag r (lru.Keys c) s c Hc Hwf Hq)
    as (s' & c' & Hrun & Hc' & Hwf' & Hq' & Htr & Hperm & Hsz).
  { intros k Hk. split; [by apply Hvalid|].
    unfold lru.Keys in Hk. by rewrite list_elem_of_In, <- in_rev, <- list_elem_of_In in Hk. }
  exists s', c'.
  split; [|split; [done|split; [by apply Keys_Permutation|split; [|split; [done|split; [|done]]]]]].
  - intros extra.
    replace (5 * lru.Len c + 2 + extra) with (S (5 * length (lru.Keys c) + S extra))
      by (rewrite Keys_length; lia).
    unfold Refresh. erewrite run_CacheKeys by exact Hc. apply Hrun.
  - unfold lru.Len. apply Permutation_length in Hperm. rewrite !length_map in Hperm. lia.
  - rewrite Htr, length_app. f_equal. rewrite <- Keys_length.
    clear -Hvalid. induction (lru.Keys c) as [|k ks IH]; [done|].
    cbn [flat_map]. destruct (key_events_valid r k) as (fn & _ & -> & _); [apply Hvalid; by left|].
    cbn [app length]. f_equal. apply IH. intros k' Hk'. apply Hvalid. by right.
Qed.

End Facts.

(** ** The claims *)

Section Claims.

Context {W : Type} (DefaultResolver : DNSResolver (W := W)).
Context (sharedFlag : bool -> nat -> bool).

Implicit Types (s sa sb sc : State (W := W)) (c : lru.Cache).
Implicit Types (key k : string) (r : Resolver (W := W)).

(** C1.  Whenever the Store holds an outcome [(rrs0, err0)] for a key (as it
    does once a lookup has stored it, and until a refresh rewrites it or an
    eviction removes it), a lookup for that key, forward or reverse, completes
    in one step of the caller with exactly that pair.  No flight is started or
    joined, so the resolver is not called; the hook is not invoked; the world
    and the trace are untouched; and the Store still holds the same outcome
    for every key, so the next lookup does the same.  In particular, after a
    lookup that missed and stored what the resolver answered, success or
    failure, the next lookup for the key returns the same pair in that way. *)
Theorem C1_cached_outcome_returned r ctx key :
  (forall s c rrs0 err0,
     cache s = Some c ->
     lru.Peek key c = Some {| rrs := rrs0; err := err0 |} ->
     exists s' c',
       next (lookup DefaultResolver r ctx key) s = [(Ret (rrs0, err0), s')] /\
       cache s' = Some c' /\
       lookupGroup s' = lookupGroup s /\ world s' = world s /\ trace s' = trace s /\
       (forall k, lru.Peek k c' = lru.Peek k c) /\
       lru.Len c' = lru.Len c) /\
  (forall ctx0 s c fn,
     cache s = Some c ->
     (0 < lru.size c)%Z ->
     quiescent (lookupGroup s) ->
     lru.Peek key c = None ->
     lookupFunc DefaultResolver r key = inr fn ->
     exists out s1 s2,
       (forall extra,
          run sharedFlag (9 + extra) (lookup DefaultResolver r ctx0 key) s =
          Some (Returned out, s1)) /\
       next (lookup DefaultResolver r ctx key) s1 = [(Ret out, s2)] /\
       lookupGroup s2 = lookupGroup s1 /\ world s2 = world s1 /\ trace s2 = trace s1).
Proof.
  assert (forall s c rrs0 err0,
     cache s = Some c ->
     lru.Peek key c = Some {| rrs := rrs0; err := err0 |} ->
     exists s' c',
       next (lookup DefaultResolver r ctx key) s = [(Ret (rrs0, err0), s')] /\
       cache s' = Some c' /\
       lookupGroup s' = lookupGroup s /\ world s' = world s /\ trace s' = trace s /\
       (forall k, lru.Peek k c' = lru.Peek k c) /\
       lru.Len c' = lru.Len c) as Hhit.
  { intros s c rrs0 err0 Hc Hp.
    exists (set_cache s (Some (snd (lru.Get key c)))), (snd (lru.Get key c)).
    split; [|split; [done|split; [done|split; [done|split; [done|split]]]]].
    - simpl. rewrite Hc, (load_hit _ _ _ Hp). done.
    - intros k. apply Get_Peek.
    - apply Get_Len. }
  split; [exact Hhit|].
  intros ctx0 s c fn Hc Hsz Hq Hp Hf.
  destruct (run_lookup_miss DefaultResolver sharedFlag r ctx0 key fn s c Hc Hq Hp Hf)
    as (s1 & Hrun & Hc1 & _).
  destruct (Hhit s1 _ _ _ Hc1 (storeLocked_Peek _ _ _ _ Hsz))
    as (s2 & c2 & Hnext & _ & Hg & Hw & Ht & _).
  eexists _, s1, s2. split; [exact Hrun|]. split; [exact Hnext|]. done.
Qed.

(** C2 (amended).  A caller waiting in the [select] of [update] whose channel
    holds an outcome marked shared receives it and first reads the Store
    again.  If the Store then holds an entry for the key, that entry is
    returned and nothing is written.  Otherwise the caller stores and returns
    the flight's failure together with the flight's results when there is no
    failure, and with no results when there is one. *)
Theorem C2_shared_outcome_rechecks_store ctx key ch res s c :
  Shared res = true ->
  delivered (lookupGroup s) !! ch = Some res ->
  cache s = Some c ->
  exists s0,
    In (update_select key (Received res), s0) (next (Select ctx ch (update_select key)) s) /\
    cache s0 = Some c /\
    match lru.Peek key c with
    | Some e =>
        exists c',
          next (update_select key (Received res)) s0 = [(Ret (rrs e, err e), set_cache s0 (Some c'))] /\
          forall k, lru.Peek k c' = lru.Peek k c
    | None =>
        let rrs2 := match Err res with None => Val res | Some _ => [] end in
        next (update_select key (Received res)) s0 = [(update_store key res [], s0)] /\
        forall s1 c1, cache s1 = Some c1 -> (0 < lru.size c1)%Z ->
          next (update_store key res []) s1 =
            [(Ret (rrs2, Err res), set_cache s1 (Some (storeLocked key rrs2 (Err res) c1)))] /\
          lru.Peek key (storeLocked key rrs2 (Err res) c1) = Some {| rrs := rrs2; err := Err res |}
    end.
Proof.
  intros Hsh Hd Hc.
  eexists. split; [|split].
  - simpl. apply in_or_app. right. rewrite Hd. left. reflexivity.
  - done.
  - destruct (lru.Peek key c) as [e|] eqn:Hp.
    + exists (snd (lru.Get key c)). split; [|intros k; apply Get_Peek].
      unfold update_select. rewrite Hsh. simpl. rewrite Hc, (load_hit _ _ _ Hp). done.
    + cbv zeta. split.
      * unfold update_select. rewrite Hsh. simpl. rewrite Hc, (load_miss _ _ Hp).
        f_equal. f_equal. apply set_cache_id. done.
      * intros s1 c1 Hc1 Hs1. split; [|by apply storeLocked_Peek].
        unfold update_store. simpl. rewrite Hc1. done.
Qed.

(** C3.  A lookup that misses the Store reaches [update] with the Store as it
    was (the read that misses and the hook change nothing in it).  A caller of
    [update] whose context finishes with [e] while it waits in the [select]
    returns no results and the failure [e]; neither joining the flight nor
    the first case of the [select] changes the cache, the world or the
    trace. *)
Theorem C3_cancelled_caller_leaves_store r ctx key fn e :
  lookupFunc DefaultResolver r key = inr fn ->
  In e (ctx_errs ctx) ->
  (forall s c,
     cache s = Some c ->
     lru.Peek key c = None ->
     next (lookup DefaultResolver r ctx key) s =
       [(match OnCacheMiss r with
         | Some h => CallHook h (update DefaultResolver r ctx key)
         | None => update DefaultResolver r ctx key
         end, s)]) /\
  (forall h s p' s',
     In (p', s') (next (CallHook h (update DefaultResolver r ctx key)) s) ->
     p' = update DefaultResolver r ctx key /\ cache s' = cache s) /\
  (forall s,
     exists ch sa,
       next (update DefaultResolver r ctx key) s = [(Select ctx ch (update_select key), sa)] /\
       cache sa = cache s /\
       forall sb,
         In (update_select key (CtxDone e), sb) (next (Select ctx ch (update_select key)) sb) /\
         exists sc,
           run sharedFlag 2 (update_select key (CtxDone e)) sb =
             Some (Returned ([], Some e), sc) /\
           cache sc = cache sb /\ world sc = world sb /\ trace sc = trace sb).
Proof.
  intros Hf He. split; [|split].
  - intros s c Hc Hp. unfold lookup. simpl. rewrite Hc, (load_miss _ _ Hp). simpl.
    by rewrite (set_cache_id _ _ Hc).
  - intros h s p' s' [[= <- <-]|[]]. done.
  - intros s. eexists _, _. split; [by apply update_first_step|]. split; [done|].
    intros sb. split; [by apply select_ctx_done|].
    eexists. split; [apply ctx_done_run|].
    by destruct (decide (e = DeadlineExceeded)).
Qed.

(** C4.  A caller of [update] marks its key in flight; when its context
    finishes first with [e], the marker is cleared exactly when [e] is the
    deadline expiry.  Any other cancellation leaves the whole flight
    coordinator as it was, and in neither case is a running call touched. *)
Theorem C4_forget_iff_deadline r ctx key fn e s :
  lookupFunc DefaultResolver r key = inr fn ->
  In e (ctx_errs ctx) ->
  exists ch sa,
    next (update DefaultResolver r ctx key) s = [(Select ctx ch (update_select key), sa)] /\
    is_Some (m (lookupGroup sa) !! key) /\
    forall sb,
      In (update_select key (CtxDone e), sb) (next (Select ctx ch (update_select key)) sb) /\
      exists sc,
        run sharedFlag 2 (update_select key (CtxDone e)) sb = Some (Returned ([], Some e), sc) /\
        calls (lookupGroup sc) = calls (lookupGroup sb) /\
        (e = DeadlineExceeded -> m (lookupGroup sc) = delete key (m (lookupGroup sb))) /\
        (e <> DeadlineExceeded -> lookupGroup sc = lookupGroup sb) /\
        (is_Some (m (lookupGroup sb) !! key) ->
         (m (lookupGroup sc) !! key = None <-> e = DeadlineExceeded)).
Proof.
  intros Hf He. eexists _, _. split; [by apply update_first_step|].
  split; [apply DoChan_marked|].
  intros sb. split; [by apply select_ctx_done|].
  eexists. split; [apply ctx_done_run|].
  destruct (decide (e = DeadlineExceeded)) as [->|Hne]; simpl.
  - split; [done|]. split; [done|]. split; [done|].
    intros _. split; [done|]. intros _. apply lookup_delete_eq.
  - split; [done|]. split; [done|]. split; [done|].
    intros [id Hid]. rewrite Hid. split; [done | intros ->; done].
Qed.


(** C6.  For every capacity [N], every pool of callers and every interleaving
    of their steps and of the flights, a cache built with capacity [N] never
    holds more than [N] entries.  Storing a key the Store does not hold drops
    exactly the least recently used key when the Store is full, and nothing
    otherwise.  With capacity 2, lookups for "a", "b" and "c" leave exactly
    the keys of "b" and "c", and a lookup for "a" then misses and calls the
    underlying resolver again. *)
Theorem C6_capacity_and_eviction :
  (forall N (w : W) pool sched pool' s' c',
     exec sharedFlag sched (pool, initial (lru.New N) w) = Some (pool', s') ->
     cache s' = Some c' ->
     (Z.of_nat (lru.Len c') <= N)%Z /\ lru.size c' = N) /\
  (forall c key rrs0 err0,
     lru.wf c ->
     lru.Peek key c = None ->
     lru.Keys (storeLocked key rrs0 err0 c) =
     (if decide (Z.of_nat (lru.Len c) = lru.size c) then tail (lru.Keys c) else lru.Keys c)
     ++ [key]) /\
  (forall (w : W) ctx,
     let r := fst (NewDNSResolver (W := W) 2) in
     let s0 := initial (snd (NewDNSResolver (W := W) 2)) w in
     exists oa ob oc od sa sb sc sd cc,
       run sharedFlag 9 (LookupHost DefaultResolver r ctx "a") s0 = Some (Returned oa, sa) /\
       run sharedFlag 9 (LookupHost DefaultResolver r ctx "b") sa = Some (Returned ob, sb) /\
       run sharedFlag 9 (LookupHost DefaultResolver r ctx "c") sb = Some (Returned oc, sc) /\
       cache sc = Some cc /\
       lru.Keys cc = [hostKey "b"; hostKey "c"] /\
       lru.Peek (hostKey "a") cc = None /\
       run sharedFlag 9 (LookupHost DefaultResolver r ctx "a") sc = Some (Returned od, sd) /\
       trace sd = [EvLookupHost Background "a"; EvLookupHost Background "b";
                   EvLookupHost Background "c"; EvLookupHost Background "a"]).
Proof.
  split; [|split].
  - intros N w pool sched pool' s' c' Hex Hc'.
    destruct (exec_store_ok sharedFlag N sched _ _ _ _ Hex (initial_store_ok N w) c' Hc')
      as [[_ Hb _] Hsz].
    split; [lia | done].
  - intros c key rrs0 err0. apply storeLocked_absent_Keys.
  - intros w ctx r s0.
    assert (forall subject, lookupFunc DefaultResolver r (hostKey subject) =
              inr {| fn_event := EvLookupHost Background subject;
                     fn_call := DNSResolver_LookupHost DefaultResolver Background subject |})
      as Hf by done.
    edestruct (run_lookup_miss DefaultResolver sharedFlag r ctx (hostKey "a")) with (s := s0)
      as (sa & Hra & Hca & Hqa & _ & Hta); [reflexivity | done | reflexivity | apply Hf |].
    edestruct (run_lookup_miss DefaultResolver sharedFlag r ctx (hostKey "b")) with (s := sa)
      as (sb & Hrb & Hcb & Hqb & _ & Htb); [exact Hca | done | reflexivity | apply Hf |].
    edestruct (run_lookup_miss DefaultResolver sharedFlag r ctx (hostKey "c")) with (s := sb)
      as (sc & Hrc & Hcc & Hqc & _ & Htc); [exact Hcb | done | reflexivity | apply Hf |].
    edestruct (run_lookup_miss DefaultResolver sharedFlag r ctx (hostKey "a")) with (s := sc)
      as (sd & Hrd & Hcd & Hqd & _ & Htd); [exact Hcc | done | reflexivity | apply Hf |].
    eexists _, _, _, _, sa, sb, sc, sd, _.
    split; [apply (Hra 0)|]. split; [apply (Hrb 0)|]. split; [apply (Hrc 0)|].
    split; [exact Hcc|]. split; [done|]. split; [done|]. split; [apply (Hrd 0)|].
    rewrite Htd, Htc, Htb, Hta. done.
Qed.

(** C8.  The two operations never share a cache key: the key of a forward
    lookup differs from the key of every reverse lookup, and two lookups of
    the same kind have the same key exactly when they have the same subject.
    An entry read under one key after a store under the other was there
    before the store. *)
Theorem C8_key_encoding_injective h h' a a' r ctx :
  LookupHost DefaultResolver r ctx h = lookup DefaultResolver r ctx (hostKey h) /\
  LookupAddr DefaultResolver r ctx a = lookup DefaultResolver r ctx (addrKey a) /\
  hostKey h <> addrKey a /\
  (hostKey h = hostKey h' <-> h = h') /\
  (addrKey a = addrKey a' <-> a = a') /\
  (forall c rrs0 err0 e,
     lru.Peek (hostKey h) (storeLocked (addrKey a) rrs0 err0 c) = Some e ->
     lru.Peek (hostKey h) c = Some e) /\
  (forall c rrs0 err0 e,
     lru.Peek (addrKey a) (storeLocked (hostKey h) rrs0 err0 c) = Some e ->
     lru.Peek (addrKey a) c = Some e).
Proof.
  split; [done|]. split; [done|]. split; [done|].
  split; [split; [cbv [hostKey String.append]; by intros [= ->] | by intros ->]|].
  split; [split; [cbv [addrKey String.append]; by intros [= ->] | by intros ->]|].
  split; intros c rrs0 err0 e; by apply storeLocked_Peek_other.
Qed.


(** C10.  [Refresh] never invokes the [OnCacheMiss] hook: its program has no
    call of the hook, and no step of its own changes the trace or the world.
    A pass that runs alone adds one resolver call per key to the trace and no
    hook event.  A lookup invokes the hook (when one is set) exactly when its
    read of the Store misses. *)
Theorem C10_refresh_never_calls_hook r :
  NoHook (Refresh DefaultResolver r) /\
  Always (fun s s' => trace s' = trace s /\ world s' = world s) (Refresh DefaultResolver r) /\
  (forall s c,
     cache s = Some c ->
     lru.wf c ->
     quiescent (lookupGroup s) ->
     (forall k, k ∈ lru.Keys c -> valid_key k) ->
     exists s',
       run sharedFlag (5 * lru.Len c + 2) (Refresh DefaultResolver r) s =
         Some (Returned tt, s') /\
       length (trace s') = length (trace s) + lru.Len c /\
       filter (fun ev => ev = EvOnCacheMiss) (trace s') =
       filter (fun ev => ev = EvOnCacheMiss) (trace s)) /\
  (forall ctx key h s c,
     OnCacheMiss r = Some h ->
     cache s = Some c ->
     match lru.Peek key c with
     | Some e =>
         exists s',
           next (lookup DefaultResolver r ctx key) s = [(Ret (rrs e, err e), s')] /\
           trace s' = trace s /\ world s' = world s
     | None =>
         next (lookup DefaultResolver r ctx key) s =
           [(CallHook h (update DefaultResolver r ctx key), s)] /\
         (forall s1,
            next (CallHook h (update DefaultResolver r ctx key)) s1 =
              [(update DefaultResolver r ctx key,
                {| cache := cache s1; lookupGroup := lookupGroup s1;
                   world := h (world s1); trace := trace s1 ++ [EvOnCacheMiss] |})]) /\
         NoHook (update DefaultResolver r ctx key)
     end).
Proof.
  assert (NoHook (Refresh DefaultResolver r)) as Hno.
  { constructor. apply NoHook_Refresh_keys. }
  split; [done|]. split; [by apply NoHook_Always|]. split.
  - intros s c Hc Hwf Hq Hvalid.
    destruct (Refresh_run_alone DefaultResolver sharedFlag r s c Hc Hwf Hq Hvalid)
      as (s' & c' & Hrun & _ & _ & _ & Htr & Hlen & _).
    exists s'. split; [|split; [done|]].
    + specialize (Hrun 0). by rewrite Nat.add_0_r in Hrun.
    + rewrite Htr, filter_app.
      assert (filter (fun ev => ev = EvOnCacheMiss)
                (flat_map (key_events DefaultResolver r) (lru.Keys c)) = []) as ->;
        [|by rewrite app_nil_r].
      clear -Hvalid. induction (lru.Keys c) as [|k ks IH]; [done|].
      cbn [flat_map]. rewrite filter_app, IH by (intros k' Hk'; apply Hvalid; by right).
      rewrite app_nil_r.
      destruct (Hvalid k) as [subject [->| ->]]; [by left| |]; done.
  - intros ctx key h s c Hh Hc.
    destruct (lru.Peek key c) as [e|] eqn:Hp.
    + eexists. split; [unfold lookup; simpl; rewrite Hc, (load_hit _ _ _ Hp); reflexivity | done].
    + split; [|split; [done | apply NoHook_update]].
      unfold lookup. simpl. rewrite Hc, (load_miss _ _ Hp). simpl. rewrite Hh.
      by rewrite (set_cache_id _ _ Hc).
Qed.

End Claims.


(** ** The scenarios, run *)

Section Witnesses.

Import Scenario.

Example run_a :
  run joined 9 (LookupHost stub r2 Background "a") s2 = Some (Returned (["a.addr"], @None error), s_a).
Proof. vm_compute. reflexivity. Qed.

Example run_ab :
  run joined 9 (LookupHost stub r2 Background "b") s_a = Some (Returned (["b.addr"], @None error), s_ab).
Proof. vm_compute. reflexivity. Qed.

Example exec_a :
  exec joined sched_a (pool_a, s2) = Some ([Thread (Ret (["a.addr"], @None error))], s_a).
Proof. vm_compute. reflexivity. Qed.

(** Two callers look up "a" at the same time: the second joins the flight of
    the first, the resolver is called once, and both get its answer (the
    second one from the Store, its outcome being marked shared). *)
Example two_callers_one_flight :
  exists s',
    exec joined
      [Own 0 0; Own 1 0; Own 0 0; Own 1 0; FlightFn 0; FlightDone 0;
       Own 0 0; Own 0 0; Own 1 1; Own 1 0]
      ([Thread (LookupHost stub r2 Background "a");
        Thread (LookupHost stub r2 WithCancel "a")], s2) =
    Some ([Thread (Ret (["a.addr"], @None error));
           Thread (Ret (["a.addr"], @None error))], s') /\
    trace s' = [EvLookupHost Background "a"] /\
    cache s' = Some c_a.
Proof. eexists. split; [vm_compute; reflexivity | split; reflexivity]. Qed.

(** A caller whose deadline expires while it waits forgets the key: the next
    caller starts a flight of its own, and both flights call the resolver. *)
Example forget_starts_a_new_flight :
  exists s',
    exec joined
      [Own 0 0; Own 0 0; Own 0 0; Own 0 0; Own 1 0; Own 1 0; FlightFn 0; FlightFn 1]
      ([Thread (LookupHost stub r2 (WithTimeout 10) "a");
        Thread (LookupHost stub r2 Background "a")], s2) =
    Some ([Thread (Ret (@nil string, Some DeadlineExceeded));
           Thread (Select Background 1 (update_select "ha"))], s') /\
    trace s' = [EvLookupHost Background "a"; EvLookupHost Background "a"] /\
    cache s' = Some c_0.
Proof. eexists. split; [vm_compute; reflexivity | split; reflexivity]. Qed.

Lemma wf_ab : lru.wf c_ab.
Proof.
  split; [done | unfold lru.Len; simpl; lia|]. simpl.
  apply NoDup_cons. split; [by intros [=]%list_elem_of_singleton|]. apply NoDup_singleton.
Defined.

Lemma valid_ab k : k ∈ lru.Keys c_ab -> valid_key k.
Proof.
  intros [->|[->|[]%elem_of_nil]%elem_of_cons]%elem_of_cons; [exists "a" | exists "b"]; by left.
Defined.

Lemma C1_witness :
  cache s_ab = Some c_ab /\
  lru.Peek "ha" c_ab = Some {| rrs := ["a.addr"]; err := None |} /\
  exists s' c',
    next (lookup stub r2 WithCancel "ha") s_ab = [(Ret (["a.addr"], @None error), s')] /\
    cache s' = Some c' /\
    lookupGroup s' = lookupGroup s_ab /\ world s' = world s_ab /\ trace s' = trace s_ab /\
    (forall k, lru.Peek k c' = lru.Peek k c_ab) /\
    lru.Len c' = lru.Len c_ab.
Proof.
  split; [reflexivity|]. split; [reflexivity|].
  apply (proj1 (C1_cached_outcome_returned stub joined r2 WithCancel "ha")
           s_ab c_ab ["a.addr"] None); reflexivity.
Defined.

Lemma C2_counterexample :
  exists s',
    run joined 4 (Select WithCancel 0 (update_select "r192.0.2.1")) s_recv =
      Some (Returned ([], Err res_both), s') /\
    ([], Err res_both) <> (Val res_both, Err res_both) /\
    cache s' = Some {| lru.size := 2;
                       lru.evictList := [("r192.0.2.1", {| rrs := []; err := Err res_both |})] |}.
Proof.
  eexists. split; [vm_compute; reflexivity|]. split; [discriminate | reflexivity].
Qed.

Lemma C2_witness :
  Shared res_both = true /\
  delivered (lookupGroup s_recv_hit) !! 0 = Some res_both /\
  cache s_recv_hit = Some c_r /\
  exists s0 c',
    In (update_select "r192.0.2.1" (Received res_both), s0)
       (next (Select WithCancel 0 (update_select "r192.0.2.1")) s_recv_hit) /\
    next (update_select "r192.0.2.1" (Received res_both)) s0 =
      [(Ret (["two.example."], @None error), set_cache s0 (Some c'))] /\
    forall k, lru.Peek k c' = lru.Peek k c_r.
Proof.
  split; [reflexivity|]. split; [reflexivity|]. split; [reflexivity|].
  destruct (C2_shared_outcome_rechecks_store WithCancel "r192.0.2.1" 0 res_both s_recv_hit c_r
              eq_refl eq_refl eq_refl) as (s0 & Hin & _ & c' & Hnext & Hpeek).
  exists s0, c'. split; [exact Hin|]. split; [exact Hnext | exact Hpeek].
Defined.

Lemma C3_witness :
  lookupFunc stub r2 "ha" = inr fn_a /\
  In DeadlineExceeded (ctx_errs (WithTimeout 10)) /\
  exists ch sa,
    next (update stub r2 (WithTimeout 10) "ha") s2 =
      [(Select (WithTimeout 10) ch (update_select "ha"), sa)] /\
    cache sa = cache s2 /\
    exists sc,
      run joined 2 (update_select "ha" (CtxDone DeadlineExceeded)) sa =
        Some (Returned ([], Some DeadlineExceeded), sc) /\
      cache sc = cache sa /\ world sc = world sa /\ trace sc = trace sa.
Proof.
  split; [reflexivity|]. split; [left; reflexivity|].
  destruct (C3_cancelled_caller_leaves_store stub joined r2 (WithTimeout 10) "ha" fn_a
              DeadlineExceeded eq_refl (or_introl eq_refl)) as (_ & _ & H).
  destruct (H s2) as (ch & sa & Hnext & Hc & Hsb).
  exists ch, sa. split; [exact Hnext|]. split; [exact Hc|].
  destruct (Hsb sa) as (_ & sc & Hsc). exists sc. exact Hsc.
Defined.

Lemma C4_witness :
  lookupFunc stub r2 "ha" = inr fn_a /\
  In Canceled (ctx_errs (WithTimeout 10)) /\
  exists ch sa,
    next (update stub r2 (WithTimeout 10) "ha") s2 =
      [(Select (WithTimeout 10) ch (update_select "ha"), sa)] /\
    is_Some (m (lookupGroup sa) !! "ha") /\
    exists sc,
      run joined 2 (update_select "ha" (CtxDone Canceled)) sa =
        Some (Returned ([], Some Canceled), sc) /\
      lookupGroup sc = lookupGroup sa.
Proof.
  split; [reflexivity|]. split; [right; left; reflexivity|].
  destruct (C4_forget_iff_deadline stub joined r2 (WithTimeout 10) "ha" fn_a Canceled s2
              eq_refl (or_intror (or_introl eq_refl))) as (ch & sa & Hnext & Hm & Hsb).
  exists ch, sa. split; [exact Hnext|]. split; [exact Hm|].
  destruct (Hsb sa) as (_ & sc & Hrun & _ & _ & Hkeep & _).
  exists sc. split; [exact Hrun|]. apply Hkeep. discriminate.
Defined.


Lemma C6_witness :
  exec joined sched_a (pool_a, initial (lru.New 2) world0) =
    Some ([Thread (Ret (["a.addr"], @None error))], s_a) /\
  cache s_a = Some c_a /\
  (Z.of_nat (lru.Len c_a) <= 2)%Z /\ lru.size c_a = 2%Z.
Proof.
  split; [vm_compute; reflexivity|]. split; [reflexivity|].
  apply (proj1 (C6_capacity_and_eviction stub joined) 2%Z world0 pool_a sched_a
           [Thread (Ret (["a.addr"], @None error))] s_a c_a);
    [vm_compute; reflexivity | reflexivity].
Defined.



Lemma C8_witness :
  lru.Peek (hostKey "b") (storeLocked (addrKey "192.0.2.1") [] (Some (ErrorString "no such host")) c_ab)
    = Some {| rrs := ["b.addr"]; err := None |} /\
  lru.Peek (hostKey "b") c_ab = Some {| rrs := ["b.addr"]; err := None |}.
Proof.
  split; [reflexivity|].
  apply (proj1 (proj2 (proj2 (proj2 (proj2 (proj2
           (C8_key_encoding_injective stub "b" "b" "192.0.2.1" "192.0.2.1" r2 Background))))))
           c_ab [] (Some (ErrorString "no such host"))).
  reflexivity.
Defined.


Lemma C10_witness :
  OnCacheMiss r_hook = Some (fun n => 100 + n) /\
  cache s2 = Some c_0 /\
  next (lookup stub r_hook Background "ha") s2 =
    [(CallHook (fun n => 100 + n) (update stub r_hook Background "ha"), s2)].
Proof.
  split; [reflexivity|]. split; [reflexivity|].
  exact (proj1 (proj2 (proj2 (proj2 (C10_refresh_never_calls_hook stub joined r_hook))) Background "ha"
                  (fun n => 100 + n) s2 c_0 eq_refl eq_refl)).
Defined.

End Witnesses.

(** ** Further properties of the code *)

Section More.

Context {W : Type} (DefaultResolver : DNSResolver (W := W)).
Context (sharedFlag : bool -> nat -> bool).

Implicit Types (s sa sb sc : State (W := W)) (c : lru.Cache).
Implicit Types (key k : string) (r : Resolver (W := W)).
Implicit Types (l : list (string * cacheEntry)).

(** *** The keys [lookupFunc] accepts *)

Lemma lookupFunc_inr_valid r key fn :
  lookupFunc DefaultResolver r key = inr fn -> valid_key key.
Proof.
  destruct key as [|k0 subject]; [done|]. unfold lookupFunc.
  destruct (decide (k0 = "h"%char)) as [->|]; [intros _; exists subject; by left|].
  destruct (decide (k0 = "r"%char)) as [->|]; [intros _; exists subject; by right|].
  done.
Qed.

Lemma lookupFunc_inl r key :
  ~ valid_key key ->
  lookupFunc DefaultResolver r key =
  inl (if decide (key = "") then "lookupFunc with empty key"
       else "lookupFunc invalid key type: " +:+ key).
Proof.
  intros Hn. destruct (lookupFunc DefaultResolver r key) as [msg|fn] eqn:Hf.
  - destruct key as [|k0 subject]; [by injection Hf as <-|].
    rewrite decide_False by done. unfold lookupFunc in Hf.
    destruct (decide (k0 = "h"%char)); [done|].
    destruct (decide (k0 = "r"%char)); [done|]. done.
  - by apply lookupFunc_inr_valid in Hf.
Qed.

(** X1.  [lookupFunc] returns a resolver call exactly for the keys the API
    builds.  For every other key (the empty one, or one whose first byte is
    neither ['h'] nor ['r']) it panics, and so does [update], before it
    reaches the flight coordinator: no step is taken, no flight is started
    and the state is as it was. *)
Theorem X1_lookupFunc_accepts_api_keys r key :
  ((exists fn, lookupFunc DefaultResolver r key = inr fn) <-> valid_key key) /\
  (~ valid_key key ->
   let msg := if decide (key = "") then "lookupFunc with empty key"
              else "lookupFunc invalid key type: " +:+ key in
   forall ctx s,
     update DefaultResolver r ctx key = Panic msg /\
     next (update DefaultResolver r ctx key) s = [] /\
     run sharedFlag 1 (update DefaultResolver r ctx key) s = Some (Panicked msg, s)).
Proof.
  split.
  - split; [intros [fn Hf]; by eapply lookupFunc_inr_valid | apply lookupFunc_valid].
  - intros Hn msg ctx s. unfold update. rewrite (lookupFunc_inl r key Hn). done.
Qed.

(** *** What [storeLocked] does to every key *)

Lemma find_app key l1 l2 :
  lru.find key (l1 ++ l2) =
  match lru.find key l1 with Some v => Some v | None => lru.find key l2 end.
Proof.
  induction l1 as [|[k v] l1 IH]; simpl; [done|].
  destruct (decide (k = key)); [done | apply IH].
Qed.

Lemma storeLocked_Peek_frame key rrs0 err0 c k :
  lru.wf c ->
  lru.Peek k (storeLocked key rrs0 err0 c) =
  if decide (k = key) then Some {| rrs := rrs0; err := err0 |}
  else if decide (lru.Peek key c = None /\ Z.of_nat (lru.Len c) = lru.size c /\
                  head (lru.Keys c) = Some k)
       then None
       else lru.Peek k c.
Proof.
  intros Hwf. destruct (decide (k = key)) as [->|Hne].
  { apply storeLocked_Peek. by destruct Hwf. }
  destruct Hwf as [Hs Hb Hd].
  unfold lru.Peek at 1. rewrite storeLocked_evictList. cbv zeta.
  destruct (lru.Peek key c) as [v|] eqn:Hp.
  - rewrite decide_False by (intros [? _]; done).
    cbn [lru.find]. rewrite decide_False by congruence. by apply find_remove_ne.
  - destruct (Z.gtb_spec (Z.of_nat (S (lru.Len c))) (lru.size c)) as [Hgt|Hle].
    + unfold lru.Len, lru.Keys, lru.Peek in *.
      destruct (lru.evictList c) as [|x xs _] using rev_ind; [simpl in *; lia|].
      destruct x as [kl vl].
      rewrite app_comm_cons, removelast_last.
      rewrite map_app. cbn [map fst]. rewrite rev_unit. cbn [head lru.find].
      rewrite decide_False by congruence.
      rewrite find_app. cbn [lru.find].
      rewrite map_app in Hd. cbn [map fst] in Hd.
      apply NoDup_app in Hd as (_ & Hnin & _).
      destruct (decide (kl = k)) as [->|Hk].
      * rewrite decide_True by (split; [done|split; [lia|done]]).
        apply find_None. intros Hin. eapply Hnin; [exact Hin | by left].
      * rewrite decide_False by (intros (_ & _ & [= ?]); done).
        by destruct (lru.find k xs).
    + rewrite decide_False by (unfold lru.Len in *; intros (_ & ? & _); lia).
      cbn [lru.find]. by rewrite decide_False by congruence.
Qed.

(** X2.  What a lookup of any key finds after [storeLocked key]: under [key]
    the stored entry; under the least recently used key, when [key] was new
    and the Store full, nothing; under every other key what was there.  In
    particular rewriting an entry in place evicts nothing.  The number of
    entries grows by one when [key] was new and there was room, and stays as
    it was otherwise. *)
Theorem X2_storeLocked_frame key rrs0 err0 c k :
  lru.wf c ->
  lru.Peek k (storeLocked key rrs0 err0 c) =
    (if decide (k = key) then Some {| rrs := rrs0; err := err0 |}
     else if decide (lru.Peek key c = None /\ Z.of_nat (lru.Len c) = lru.size c /\
                     head (lru.Keys c) = Some k)
          then None
          else lru.Peek k c) /\
  lru.Len (storeLocked key rrs0 err0 c) =
    (if decide (lru.Peek key c = None /\ Z.of_nat (lru.Len c) <> lru.size c)
     then S (lru.Len c) else lru.Len c).
Proof.
  intros Hwf. split; [by apply storeLocked_Peek_frame|].
  destruct Hwf as [Hs Hb Hd]. unfold lru.Len at 1. rewrite storeLocked_evictList. cbv zeta.
  destruct (lru.Peek key c) as [v|] eqn:Hp.
  - rewrite decide_False by (intros [? _]; done).
    cbn [length]. by erewrite remove_length.
  - destruct (Z.gtb_spec (Z.of_nat (S (lru.Len c))) (lru.size c)) as [Hgt|Hle].
    + rewrite decide_False by (intros [_ ?]; lia).
      rewrite removelast_length. done.
    + rewrite decide_True by (split; [done | lia]). done.
Qed.

(** X3.  In a Store of capacity two or more, a lookup that hits protects its
    key from the next eviction: after [load key] found the entry, storing a
    new key leaves the entry of [key] in place, even when the Store is
    full. *)
Theorem X3_hit_protects_from_eviction key k c e rrs0 err0 :
  lru.wf c ->
  (2 <= lru.size c)%Z ->
  lru.Peek key c = Some e ->
  lru.Peek k c = None ->
  fst (load key c) = (rrs e, true, err e) /\
  lru.Peek key (storeLocked k rrs0 err0 (snd (load key c))) = Some e.
Proof.
  intros Hwf Hsz Hp Hk. rewrite (load_hit _ _ _ Hp). split; [done|]. cbn [snd].
  assert (key <> k) as Hne by congruence.
  rewrite storeLocked_Peek_frame by (by apply Get_wf).
  rewrite decide_False by done. rewrite Get_Peek.
  rewrite decide_False; [by rewrite Get_Peek|].
  intros (_ & Hfull & Hhead). rewrite Get_Len, Get_size in Hfull.
  unfold lru.Keys, lru.Get, lru.Peek, lru.Len in *. rewrite Hp in Hhead.
  cbn [lru.evictList snd map fst rev] in Hhead.
  pose proof (remove_length key _ _ Hp) as Hlen.
  destruct Hwf as [_ _ Hd]. apply (remove_not_elem key) in Hd.
  destruct (rev (map fst (lru.remove key (lru.evictList c)))) as [|y ys] eqn:E.
  - apply (f_equal length) in E. rewrite length_rev, length_map in E. simpl in E. lia.
  - cbn [app head] in Hhead. injection Hhead as ->.
    apply Hd. apply list_elem_of_In, in_rev. rewrite E. by left.
Qed.

(** *** A lookup that misses *)

Lemma getCtx_Background r : getCtx r = Background <-> (Timeout r <= 0)%Z.
Proof.
  unfold getCtx. destruct (Z.gtb_spec (Timeout r) 0); split; (done || lia).
Qed.

Lemma miss_returns_answer r ctx key fn s c :
  cache s = Some c ->
  (0 < lru.size c)%Z ->
  quiescent (lookupGroup s) ->
  lru.Peek key c = None ->
  lookupFunc DefaultResolver r key = inr fn ->
  let w1 := match OnCacheMiss r with Some h => h (world s) | None => world s end in
  let v := fn_call fn w1 in
  exists s' c',
    (forall extra,
       run sharedFlag (9 + extra) (lookup DefaultResolver r ctx key) s =
       Some (Returned (rrs (outcome (fst v)), err (outcome (fst v))), s')) /\
    world s' = snd v /\
    cache s' = Some c' /\
    lru.Peek key c' = Some (outcome (fst v)) /\
    last (trace s') = Some (fn_event fn).
Proof.
  intros Hc Hsz Hq Hp Hf w1 v.
  destruct (run_lookup_miss DefaultResolver sharedFlag r ctx key fn s c Hc Hq Hp Hf)
    as (s' & Hrun & Hc' & _ & Hw & Ht).
  exists s', (storeLocked key (rrs (outcome (fst v))) (err (outcome (fst v))) c).
  split; [exact Hrun|]. split; [exact Hw|]. split; [exact Hc'|].
  split; [by apply storeLocked_Peek|].
  rewrite Ht, app_assoc. apply last_snoc.
Qed.

(** X4.  A forward or reverse lookup that misses, run alone, returns what the
    resolver in use ([r.Resolver] when set, the default one otherwise) answers
    for the subject in the world the hook left: the results when there is no
    failure, no results and the failure otherwise.  That outcome is then the
    entry of the key.  The resolver is called with the background context when
    [r.Timeout] is not positive and with a deadline of [r.Timeout] otherwise,
    whatever the caller's context. *)
Theorem X4_miss_returns_resolver_answer r ctx subject s c :
  cache s = Some c ->
  (0 < lru.size c)%Z ->
  quiescent (lookupGroup s) ->
  let d := match dnsResolver r with Some d => d | None => DefaultResolver end in
  let w1 := match OnCacheMiss r with Some h => h (world s) | None => world s end in
  (getCtx r = if (Timeout r >? 0)%Z then WithTimeout (Timeout r) else Background) /\
  (lru.Peek (hostKey subject) c = None ->
   let v := DNSResolver_LookupHost d (getCtx r) subject w1 in
   exists s' c',
     (forall extra,
        run sharedFlag (9 + extra) (LookupHost DefaultResolver r ctx subject) s =
        Some (Returned (rrs (outcome (fst v)), err (outcome (fst v))), s')) /\
     world s' = snd v /\
     cache s' = Some c' /\
     lru.Peek (hostKey subject) c' = Some (outcome (fst v)) /\
     last (trace s') = Some (EvLookupHost (getCtx r) subject)) /\
  (lru.Peek (addrKey subject) c = None ->
   let v := DNSResolver_LookupAddr d (getCtx r) subject w1 in
   exists s' c',
     (forall extra,
        run sharedFlag (9 + extra) (LookupAddr DefaultResolver r ctx subject) s =
        Some (Returned (rrs (outcome (fst v)), err (outcome (fst v))), s')) /\
     world s' = snd v /\
     cache s' = Some c' /\
     lru.Peek (addrKey subject) c' = Some (outcome (fst v)) /\
     last (trace s') = Some (EvLookupAddr (getCtx r) subject)).
Proof.
  intros Hc Hsz Hq d w1. split; [done|]. split; intros Hp.
  - exact (miss_returns_answer r ctx (hostKey subject) _ s c Hc Hsz Hq Hp
             (lookupFunc_hostKey DefaultResolver r subject)).
  - exact (miss_returns_answer r ctx (addrKey subject) _ s c Hc Hsz Hq Hp
             (lookupFunc_addrKey DefaultResolver r subject)).
Qed.

(** X5.  An outcome that is not marked shared is stored without reading the
    Store first: whatever entry the key had, it is replaced by the outcome of
    the flight, which is also what the caller returns. *)
Theorem X5_unshared_outcome_overwrites key res s c :
  Shared res = false ->
  cache s = Some c ->
  (0 < lru.size c)%Z ->
  let e := outcome (Val res, Err res) in
  exists c',
    next (update_select key (Received res)) s = [(Ret (rrs e, err e), set_cache s (Some c'))] /\
    lru.Peek key c' = Some e /\
    lru.size c' = lru.size c.
Proof.
  intros Hsh Hc Hsz e.
  exists (storeLocked key (rrs e) (err e) c).
  split; [|split; [by apply storeLocked_Peek | apply storeLocked_size]].
  unfold update_select, update_store. rewrite Hsh. simpl. rewrite Hc. done.
Qed.

(** X6.  [Refresh] of a Store that holds no key returns at once: it takes one
    step, starts no flight, calls nothing and leaves the state as it was.
    This is the case right after [NewDNSResolver] with a positive size, which
    builds an empty Store of that capacity. *)
Theorem X6_refresh_of_empty_store r :
  (forall s c,
     cache s = Some c ->
     lru.evictList c = [] ->
     next (Refresh DefaultResolver r) s = [(Ret tt, s)] /\
     run sharedFlag 2 (Refresh DefaultResolver r) s = Some (Returned tt, s)) /\
  (forall cacheSize (w : W),
     (0 < cacheSize)%Z ->
     snd (NewDNSResolver (W := W) cacheSize) =
       Some {| lru.size := cacheSize; lru.evictList := [] |} /\
     run sharedFlag 2 (Refresh DefaultResolver r)
       (initial (snd (NewDNSResolver (W := W) cacheSize)) w) =
     Some (Returned tt, initial (snd (NewDNSResolver (W := W) cacheSize)) w)).
Proof.
  assert (forall s c,
     cache s = Some c ->
     lru.evictList c = [] ->
     next (Refresh DefaultResolver r) s = [(Ret tt, s)] /\
     run sharedFlag 2 (Refresh DefaultResolver r) s = Some (Returned tt, s)) as Hempty.
  { intros s c Hc He. unfold Refresh. simpl. rewrite Hc. unfold lru.Keys. rewrite He. done. }
  split; [exact Hempty|].
  intros cacheSize w Hpos.
  assert (snd (NewDNSResolver (W := W) cacheSize) =
          Some {| lru.size := cacheSize; lru.evictList := [] |}) as Hnew.
  { unfold NewDNSResolver, lru.New. simpl. destruct (Z.leb_spec cacheSize 0); [lia | done]. }
  split; [exact Hnew|]. rewrite Hnew. by eapply Hempty.
Qed.


(** *** The keys of the Store, over every interleaving *)

Lemma StoresValid_bind {A B : Type} (p : Prog (W := W) A) (f : A -> Prog (W := W) B) :
  StoresValid p -> (forall a, StoresValid (f a)) -> StoresValid (bind p f).
Proof. intros Hp Hf. induction Hp; simpl; try constructor; auto. Qed.

Lemma StoresValid_update_select key sel :
  valid_key key -> StoresValid (update_select (W := W) key sel).
Proof.
  intros Hv.
  assert (forall res rrs1, StoresValid (update_store (W := W) key res rrs1)) as Hst.
  { intros res rrs1. unfold update_store. constructor; [done | constructor]. }
  destruct sel as [e|res]; simpl.
  - destruct (decide (e = DeadlineExceeded)); [constructor|]; constructor.
  - destruct (Shared res); [|apply Hst].
    constructor. intros [[rrs1 found] err1]. destruct found; [constructor | apply Hst].
Qed.

Lemma StoresValid_update r ctx key : StoresValid (update DefaultResolver r ctx key).
Proof.
  unfold update. destruct (lookupFunc DefaultResolver r key) as [msg|fn] eqn:Hf; constructor.
  intros ch. constructor. intros sel. apply StoresValid_update_select.
  by eapply lookupFunc_inr_valid.
Qed.

Lemma StoresValid_lookup r ctx key : StoresValid (lookup DefaultResolver r ctx key).
Proof.
  unfold lookup. constructor. intros [[rrs1 found] err1].
  destruct found; simpl; [constructor|].
  destruct (OnCacheMiss r); [constructor|]; apply StoresValid_update.
Qed.

Lemma StoresValid_Refresh r : StoresValid (Refresh DefaultResolver r).
Proof.
  constructor. intros keys. induction keys as [|key keys IH]; simpl; [constructor|].
  apply StoresValid_bind; [apply StoresValid_update | done].
Qed.

Lemma api_thread_ok (t : thread (W := W)) : api_thread DefaultResolver t -> thread_ok t.
Proof.
  intros [r ctx host|r ctx addr|r]; simpl;
    [apply StoresValid_lookup | apply StoresValid_lookup | apply StoresValid_Refresh].
Qed.

Lemma storeLocked_Keys_elem key rrs0 err0 c k :
  k ∈ lru.Keys (storeLocked key rrs0 err0 c) -> k = key \/ k ∈ lru.Keys c.
Proof.
  intros Hk. destruct (decide (k = key)) as [|Hne]; [by left | right].
  apply Keys_elem in Hk as [e He]. apply Keys_elem. exists e.
  by eapply storeLocked_Peek_other.
Qed.

Lemma next_keys_valid {A : Type} (p p' : Prog (W := W) A) s s' :
  StoresValid p ->
  In (p', s') (next p s) ->
  keys_valid s ->
  StoresValid p' /\ keys_valid s'.
Proof.
  intros Hp Hin Hok.
  destruct Hp as [a|msg|key k Hk|key rrs0 err0 k Hv Hk|k Hk|h k Hk|key fn k Hk|key k Hk
                 |ctx ch k Hk]; simpl in Hin; try done.
  - destruct (cache s) as [c|] eqn:Hc.
    + pose proof (load_snd key c) as Hl. destruct (load key c) as [x c1].
      destruct Hin as [[= <- <-]|[]]. split; [apply Hk|].
      intros c2 [= <-] k0 Hk0. simpl in Hl. subst c1.
      apply (Hok c Hc). unfold lru.Keys in *.
      rewrite list_elem_of_In, <- in_rev, <- list_elem_of_In in Hk0.
      rewrite list_elem_of_In, <- in_rev, <- list_elem_of_In.
      by rewrite <- (Get_Permutation key c).
    + destruct Hin as [[= <- <-]|[]]. split; [constructor | done].
  - destruct (cache s) as [c|] eqn:Hc.
    + destruct Hin as [[= <- <-]|[]]. split; [done|].
      intros c2 [= <-] k0 Hk0.
      apply storeLocked_Keys_elem in Hk0 as [->|Hk0]; [done | by apply (Hok c Hc)].
    + destruct Hin as [[= <- <-]|[]]. split; [constructor | done].
  - destruct (cache s) as [c|] eqn:Hc; destruct Hin as [[= <- <-]|[]];
      (split; [|done]); [apply Hk | constructor].
  - destruct Hin as [[= <- <-]|[]]. split; [done|]. intros c Hc. by apply Hok.
  - destruct (Group_DoChan key fn (lookupGroup s)) as [ch g].
    destruct Hin as [[= <- <-]|[]]. split; [apply Hk | done].
  - destruct Hin as [[= <- <-]|[]]. split; [done | done].
  - apply in_app_or in Hin as [Hin|Hin].
    + apply in_map_iff in Hin as (e & [= <- <-] & _). split; [apply Hk | done].
    + destruct (delivered (lookupGroup s) !! ch) as [res|]; [|done].
      destruct Hin as [[= <- <-]|[]]. split; [apply Hk | done].
Qed.

Lemma exec1_keys_valid ch (pool pool' : list (thread (W := W))) s s' :
  exec1 sharedFlag ch (pool, s) = Some (pool', s') ->
  Forall thread_ok pool -> keys_valid s ->
  Forall thread_ok pool' /\ keys_valid s'.
Proof.
  destruct ch as [tid alt|id|id]; simpl.
  - destruct (pool !! tid) as [[A p]|] eqn:Ht; [|done].
    destruct (next p s !! alt) as [[p' s1]|] eqn:Hn; [|done].
    intros [= <- <-] Hpool Hok.
    assert (StoresValid p) as Hp.
    { apply (proj1 (Forall_lookup _ _) Hpool _ _ Ht). }
    destruct (next_keys_valid p p' s s1 Hp) as [Hp' Hok']; [|done|].
    { apply list_elem_of_In, list_elem_of_lookup. eauto. }
    split; [|done]. by apply Forall_insert.
  - destruct (flight_fn id s) as [s1|] eqn:Hf; [|done]. intros [= <- <-] Hpool Hok.
    split; [done|]. intros c Hc. apply Hok. by rewrite <- (flight_fn_cache _ _ _ Hf).
  - destruct (flight_done sharedFlag id s) as [s1|] eqn:Hf; [|done].
    intros [= <- <-] Hpool Hok.
    split; [done|]. intros c Hc. apply Hok. by rewrite <- (flight_done_cache _ _ _ _ Hf).
Qed.

Lemma exec_keys_valid sched : forall (pool pool' : list (thread (W := W))) s s',
  exec sharedFlag sched (pool, s) = Some (pool', s') ->
  Forall thread_ok pool -> keys_valid s ->
  Forall thread_ok pool' /\ keys_valid s'.
Proof.
  induction sched as [|ch sched IH]; intros pool pool' s s'; cbn [exec].
  - by intros [= <- <-].
  - destruct (exec1 sharedFlag ch (pool, s)) as [[pool1 s1]|] eqn:H1; [|done].
    intros Hex Hpool Hok.
    destruct (exec1_keys_valid _ _ _ _ _ H1 Hpool Hok) as [Hpool1 Hok1].
    by eapply IH.
Qed.

(** X8.  Whatever calls of [LookupHost], [LookupAddr] and [Refresh] run, in
    whatever interleaving, on a freshly built Resolver: every key of the
    Store is a kind, ['h'] or ['r'], followed by a subject, and no key is
    there twice.  So [lookupFunc] accepts every key [Refresh] enumerates: a
    refresh never panics on the keys it finds. *)
Theorem X8_store_keys_are_api_keys N (w : W) sched pool pool' s' c' :
  Forall (api_thread DefaultResolver) pool ->
  exec sharedFlag sched (pool, initial (lru.New N) w) = Some (pool', s') ->
  cache s' = Some c' ->
  NoDup (lru.Keys c') /\
  (forall k, k ∈ lru.Keys c' -> valid_key k) /\
  (forall r k, k ∈ lru.Keys c' -> exists fn, lookupFunc DefaultResolver r k = inr fn).
Proof.
  intros Hpool Hex Hc'.
  assert (Forall thread_ok pool) as Hpool'.
  { eapply Forall_impl; [exact Hpool | apply api_thread_ok]. }
  assert (keys_valid (initial (lru.New N) w)) as Hinit.
  { intros c Hc k Hk. simpl in Hc. apply New_wf in Hc as (_ & _ & He).
    unfold lru.Keys in Hk. rewrite He in Hk. by apply elem_of_nil in Hk. }
  destruct (exec_keys_valid sched _ _ _ _ Hex Hpool' Hinit) as [_ Hok].
  destruct (exec_store_ok sharedFlag N sched _ _ _ _ Hex (initial_store_ok N w) c' Hc')
    as [Hwf _].
  split; [by apply Keys_NoDup|]. split; [by apply Hok|].
  intros r k Hk. apply lookupFunc_valid. by eapply Hok.
Qed.

(** *** A refresh pass, exactly *)

Lemma storeLocked_present_is_Some key rrs0 err0 c k :
  is_Some (lru.Peek key c) ->
  is_Some (lru.Peek k c) ->
  is_Some (lru.Peek k (storeLocked key rrs0 err0 c)).
Proof.
  intros [v Hv] Hk. unfold lru.Peek at 1. rewrite storeLocked_evictList. cbv zeta.
  rewrite Hv. cbn [lru.find]. destruct (decide (key = k)) as [|Hne]; [eauto|].
  rewrite find_remove_ne by congruence. done.
Qed.

Lemma refresh_one_present b r (wc : W * lru.Cache) key fn k :
  lookupFunc DefaultResolver r key = inr fn ->
  is_Some (lru.Peek key (snd wc)) ->
  is_Some (lru.Peek k (snd wc)) ->
  is_Some (lru.Peek k (snd (refresh_one DefaultResolver b r wc key))).
Proof.
  intros Hf Hkey Hk. unfold refresh_one. rewrite Hf. cbn [snd].
  destruct b; [by rewrite Get_Peek | by apply storeLocked_present_is_Some].
Qed.

Lemma refresh_one_keys b r (wc : W * lru.Cache) key fn :
  lookupFunc DefaultResolver r key = inr fn ->
  is_Some (lru.Peek key (snd wc)) ->
  map fst (lru.evictList (snd (refresh_one DefaultResolver b r wc key))) =
  key :: map fst (lru.remove key (lru.evictList (snd wc))).
Proof.
  intros Hf [e He]. unfold refresh_one. rewrite Hf. cbn [snd]. destruct b.
  - unfold lru.Get. unfold lru.Peek in He. by rewrite He.
  - rewrite storeLocked_evictList. cbv zeta. by rewrite He.
Qed.

Lemma remove_last_key k : forall l (a : list string),
  map fst l = a ++ [k] -> k ∉ a -> map fst (lru.remove k l) = a.
Proof.
  induction l as [|[k' v] l IH]; intros a Hl Hn.
  - by destruct a.
  - cbn [map fst] in Hl. destruct a as [|x a]; cbn [app] in Hl.
    + injection Hl as -> Hl. apply map_eq_nil in Hl as ->.
      cbn [lru.remove]. by rewrite decide_True.
    + injection Hl as -> Hl. apply not_elem_of_cons in Hn as [Hx Hn].
      cbn [lru.remove]. rewrite decide_False by congruence.
      cbn [map fst]. f_equal. by apply IH.
Qed.

Lemma refresh_all_order b r : forall (q p : list string) (wc : W * lru.Cache),
  map fst (lru.evictList (snd wc)) = rev p ++ rev q ->
  NoDup (p ++ q) ->
  (forall k, k ∈ q -> valid_key k) ->
  map fst (lru.evictList (snd (refresh_all DefaultResolver b r q wc))) = rev (p ++ q).
Proof.
  induction q as [|k q IH]; intros p wc Hml Hd Hv.
  - simpl in *. by rewrite app_nil_r in *.
  - cbn [refresh_all fold_left]. cbn [rev] in Hml.
    destruct (lookupFunc_valid DefaultResolver r k) as [fn Hf]; [apply Hv; by left|].
    assert (is_Some (lru.Peek k (snd wc))) as Hk.
    { destruct (lru.Peek k (snd wc)) eqn:E; [eauto|]. apply find_None in E.
      exfalso. apply E. rewrite Hml, !elem_of_app. right. right. by left. }
    assert (k ∉ rev p ++ rev q) as Hn.
    { rewrite elem_of_app, !list_elem_of_In, <- !in_rev, <- !list_elem_of_In.
      apply NoDup_app in Hd as (_ & Hpq & Hq). apply NoDup_cons in Hq as [Hkq _].
      intros [Hin|Hin]; [|done]. apply (Hpq k Hin). by left. }
    replace (p ++ k :: q) with ((p ++ [k]) ++ q) by (by rewrite <- app_assoc).
    apply (IH (p ++ [k]) (refresh_one DefaultResolver b r wc k)).
    + rewrite (refresh_one_keys b r wc k fn Hf Hk).
      rewrite (remove_last_key k _ (rev p ++ rev q)); [|by rewrite Hml, app_assoc|done].
      by rewrite rev_unit.
    + by rewrite <- app_assoc.
    + intros k' Hk'. apply Hv. by right.
Qed.

Lemma run_update_exact r ctx key fn s c :
  lookupFunc DefaultResolver r key = inr fn ->
  quiescent (lookupGroup s) ->
  cache s = Some c ->
  is_Some (lru.Peek key c) ->
  exists out,
    forall (B : Type) (k : list string * option error -> Prog B) fuel,
      run sharedFlag (5 + fuel) (bind (update DefaultResolver r ctx key) k) s =
      run sharedFlag fuel (k out)
        {| cache := Some (snd (refresh_one DefaultResolver (sharedFlag true 0) r (world s, c) key));
           lookupGroup := {| m := ∅; calls := ∅; delivered := ∅;
                             fresh := S (fresh (lookupGroup s)) |};
           world := fst (refresh_one DefaultResolver (sharedFlag true 0) r (world s, c) key);
           trace := trace s ++ [fn_event fn] |}.
Proof.
  intros Hf Hq Hc [e He]. unfold refresh_one. rewrite Hf. cbn [fst snd].
  destruct (sharedFlag true 0) eqn:Hsh.
  - eexists. intros B k fuel. change (5 + fuel) with (4 + S fuel).
    rewrite (update_valid _ _ _ _ _ Hf). cbn [bind].
    rewrite (run_flight _ _ _ _ _ _ _ Hq).
    unfold update_select. cbn [Shared]. rewrite Hsh. cbn [bind].
    erewrite run_Load by (cbn [cache]; exact Hc).
    rewrite (load_hit _ _ _ He). cbn [fst snd bind]. reflexivity.
  - eexists. intros B k fuel. change (5 + fuel) with (4 + S fuel).
    rewrite (update_valid _ _ _ _ _ Hf). cbn [bind].
    rewrite (run_flight _ _ _ _ _ _ _ Hq).
    unfold update_select, update_store. cbn [Shared]. rewrite Hsh. cbn [bind].
    erewrite run_StoreLocked by (cbn [cache]; exact Hc).
    reflexivity.
Qed.

Lemma run_Refresh_keys_exact r keys : forall s c,
  cache s = Some c ->
  quiescent (lookupGroup s) ->
  (forall k, k ∈ keys -> valid_key k /\ is_Some (lru.Peek k c)) ->
  forall extra,
    run sharedFlag (5 * length keys + S extra) (Refresh_keys DefaultResolver r keys) s =
    Some (Returned tt,
          {| cache := Some (snd (refresh_all DefaultResolver (sharedFlag true 0) r keys
                                   (world s, c)));
             lookupGroup := {| m := ∅; calls := ∅; delivered := ∅;
                               fresh := length keys + fresh (lookupGroup s) |};
             world := fst (refresh_all DefaultResolver (sharedFlag true 0) r keys (world s, c));
             trace := trace s ++ flat_map (key_events DefaultResolver r) keys |}).
Proof.
  induction keys as [|key keys IH]; intros s c Hc Hq Hkeys extra.
  - simpl. rewrite app_nil_r. destruct s as [c0 [m0 cl0 d0 n] w tr].
    destruct Hq as (Hm & Hcl & Hd). simpl in *. by subst.
  - destruct (Hkeys key) as [Hv Hp]; [by left|].
    destruct (lookupFunc_valid DefaultResolver r key Hv) as [fn Hf].
    destruct (run_update_exact r Background key fn s c Hf Hq Hc Hp) as [out Hrun].
    cbn [Refresh_keys length].
    replace (5 * S (length keys) + S extra) with (5 + (5 * length keys + S extra)) by lia.
    rewrite Hrun. erewrite IH; [| reflexivity | done |].
    + cbn [world cache trace lookupGroup fresh refresh_all fold_left flat_map].
      unfold key_events at 2. rewrite Hf.
      rewrite <- !surjective_pairing. unfold refresh_all.
      rewrite <- app_assoc. cbn [app].
      replace (length keys + S (fresh (lookupGroup s)))
        with (S (length keys) + fresh (lookupGroup s)) by lia.
      reflexivity.
    + intros k Hk. destruct (Hkeys k) as [Hvk Hpk]; [by right|]. split; [done|].
      by eapply refresh_one_present.
Qed.

Lemma storeLocked_present_other key rrs0 err0 c k :
  is_Some (lru.Peek key c) ->
  k <> key ->
  lru.Peek k (storeLocked key rrs0 err0 c) = lru.Peek k c.
Proof.
  intros [v Hv] Hne. unfold lru.Peek at 1. rewrite storeLocked_evictList. cbv zeta.
  rewrite Hv. cbn [lru.find]. rewrite decide_False by congruence.
  by apply find_remove_ne.
Qed.

Lemma refresh_one_other b r (wc : W * lru.Cache) key fn k :
  lookupFunc DefaultResolver r key = inr fn ->
  is_Some (lru.Peek key (snd wc)) ->
  k <> key ->
  lru.Peek k (snd (refresh_one DefaultResolver b r wc key)) = lru.Peek k (snd wc).
Proof.
  intros Hf Hkey Hne. unfold refresh_one. rewrite Hf. cbn [snd].
  destruct b; [apply Get_Peek | by apply storeLocked_present_other].
Qed.

Lemma refresh_one_size b r (wc : W * lru.Cache) key :
  lru.size (snd (refresh_one DefaultResolver b r wc key)) = lru.size (snd wc).
Proof.
  unfold refresh_one. destruct (lookupFunc DefaultResolver r key); [done|]. cbn [snd].
  destruct b; [apply Get_size | apply storeLocked_size].
Qed.

Lemma refresh_all_cons b r k q (wc : W * lru.Cache) :
  refresh_all DefaultResolver b r (k :: q) wc =
  refresh_all DefaultResolver b r q (refresh_one DefaultResolver b r wc k).
Proof. done. Qed.

Lemma refresh_all_other b r q : forall (wc : W * lru.Cache) k,
  (forall k', k' ∈ q -> valid_key k' /\ is_Some (lru.Peek k' (snd wc))) ->
  k ∉ q ->
  lru.Peek k (snd (refresh_all DefaultResolver b r q wc)) = lru.Peek k (snd wc).
Proof.
  induction q as [|k0 q IH]; intros wc k Hq Hn; [done|].
  apply not_elem_of_cons in Hn as [Hne Hn].
  destruct (Hq k0) as [Hv Hp]; [by left|].
  destruct (lookupFunc_valid DefaultResolver r k0 Hv) as [fn Hf].
  rewrite refresh_all_cons.
  rewrite (IH (refresh_one DefaultResolver b r wc k0) k); [by eapply refresh_one_other| |done].
  intros k' Hk'. destruct (Hq k') as [Hv' Hp']; [by right|]. split; [done|].
  by eapply refresh_one_present.
Qed.

Lemma refresh_all_present b r q : forall (wc : W * lru.Cache) k,
  (forall k', k' ∈ q -> valid_key k' /\ is_Some (lru.Peek k' (snd wc))) ->
  is_Some (lru.Peek k (snd wc)) ->
  is_Some (lru.Peek k (snd (refresh_all DefaultResolver b r q wc))).
Proof.
  induction q as [|k0 q IH]; intros wc k Hq Hk; [done|].
  destruct (Hq k0) as [Hv Hp]; [by left|].
  destruct (lookupFunc_valid DefaultResolver r k0 Hv) as [fn Hf].
  rewrite refresh_all_cons. apply IH.
  - intros k' Hk'. destruct (Hq k') as [Hv' Hp']; [by right|]. split; [done|].
    by eapply refresh_one_present.
  - by eapply refresh_one_present.
Qed.

Lemma refresh_all_size b r q : forall (wc : W * lru.Cache),
  lru.size (snd (refresh_all DefaultResolver b r q wc)) = lru.size (snd wc).
Proof.
  induction q as [|k0 q IH]; intros wc; [done|].
  rewrite refresh_all_cons. etrans; [apply IH | apply refresh_one_size].
Qed.

Lemma Refresh_run_exact r s c :
  cache s = Some c ->
  quiescent (lookupGroup s) ->
  (forall k, k ∈ lru.Keys c -> valid_key k) ->
  forall extra,
    run sharedFlag (5 * lru.Len c + 2 + extra) (Refresh DefaultResolver r) s =
    Some (Returned tt,
          {| cache := Some (snd (refresh_all DefaultResolver (sharedFlag true 0) r (lru.Keys c)
                                   (world s, c)));
             lookupGroup := {| m := ∅; calls := ∅; delivered := ∅;
                               fresh := lru.Len c + fresh (lookupGroup s) |};
             world := fst (refresh_all DefaultResolver (sharedFlag true 0) r (lru.Keys c)
                             (world s, c));
             trace := trace s ++ flat_map (key_events DefaultResolver r) (lru.Keys c) |}).
Proof.
  intros Hc Hq Hvalid extra.
  replace (5 * lru.Len c + 2 + extra) with (S (5 * length (lru.Keys c) + S extra))
    by (rewrite Keys_length; lia).
  unfold Refresh. erewrite run_CacheKeys by exact Hc.
  rewrite (run_Refresh_keys_exact r (lru.Keys c) s c Hc Hq).
  - by rewrite Keys_length.
  - intros k Hk. split; [by apply Hvalid | by apply Keys_elem].
Qed.

(** X9.  A refresh pass that runs alone, on a coordinator that does not mark
    the outcome of a call nobody joined as shared, replaces every entry: the
    entry of each key is afterwards the outcome of what the resolver answers
    for that key, asked in the world the refreshes of the older keys left. *)
Theorem X9_refresh_replaces_every_entry r s c :
  cache s = Some c ->
  lru.wf c ->
  quiescent (lookupGroup s) ->
  (forall k, k ∈ lru.Keys c -> valid_key k) ->
  sharedFlag true 0 = false ->
  exists s' c',
    (forall extra,
       run sharedFlag (5 * lru.Len c + 2 + extra) (Refresh DefaultResolver r) s =
       Some (Returned tt, s')) /\
    cache s' = Some c' /\
    world s' = fst (refresh_all DefaultResolver false r (lru.Keys c) (world s, c)) /\
    forall p k q fn,
      lru.Keys c = p ++ k :: q ->
      lookupFunc DefaultResolver r k = inr fn ->
      lru.Peek k c' =
      Some (outcome (fst (fn_call fn (fst (refresh_all DefaultResolver false r p (world s, c)))))).
Proof.
  intros Hc Hwf Hq Hvalid Hsh.
  eexists _, _. split; [intros extra; by apply Refresh_run_exact|].
  rewrite Hsh. cbn [cache world]. split; [done|]. split; [done|].
  intros p k q fn HK Hf.
  assert (forall k', k' ∈ p ++ k :: q -> valid_key k' /\ is_Some (lru.Peek k' c)) as Hall.
  { intros k' Hk'. rewrite <- HK in Hk'. split; [by apply Hvalid | by apply Keys_elem]. }
  pose proof (Keys_NoDup c Hwf) as Hd. rewrite HK in Hd.
  apply NoDup_app in Hd as (_ & _ & Hd). apply NoDup_cons in Hd as [Hkq _].
  rewrite HK. unfold refresh_all. rewrite fold_left_app. cbn [fold_left].
  fold (refresh_all DefaultResolver false r p (world s, c)).
  set (wc := refresh_all DefaultResolver false r p (world s, c)).
  fold (refresh_all DefaultResolver false r q (refresh_one DefaultResolver false r wc k)).
  assert (forall k', k' ∈ k :: q -> is_Some (lru.Peek k' (snd wc))) as Hpres.
  { intros k' Hk'. apply refresh_all_present.
    - intros k0 Hk0. apply Hall. apply elem_of_app. by left.
    - apply Hall. apply elem_of_app. by right. }
  rewrite refresh_all_other; [| |done].
  - unfold refresh_one. rewrite Hf. cbn [snd]. apply storeLocked_Peek.
    unfold wc. rewrite refresh_all_size. by destruct Hwf.
  - intros k' Hk'. split; [apply Hall; apply elem_of_app; right; by right|].
    eapply refresh_one_present; [exact Hf | apply Hpres; by left | apply Hpres; by right].
Qed.

(** X10.  A refresh pass that runs alone leaves the recency order of the
    Store exactly as it was: the keys are refreshed from the least to the most
    recently used one and each refresh makes its key the most recent, so the
    key that would have been evicted next is still the next. *)
Theorem X10_refresh_keeps_recency_order r s c :
  cache s = Some c ->
  lru.wf c ->
  quiescent (lookupGroup s) ->
  (forall k, k ∈ lru.Keys c -> valid_key k) ->
  exists s' c',
    (forall extra,
       run sharedFlag (5 * lru.Len c + 2 + extra) (Refresh DefaultResolver r) s =
       Some (Returned tt, s')) /\
    cache s' = Some c' /\
    lru.Keys c' = lru.Keys c /\
    lru.size c' = lru.size c.
Proof.
  intros Hc Hwf Hq Hvalid.
  eexists _, _. split; [intros extra; by apply Refresh_run_exact|].
  cbn [cache]. split; [done|]. split; [|apply refresh_all_size].
  unfold lru.Keys at 1.
  rewrite (refresh_all_order (sharedFlag true 0) r (lru.Keys c) [] (world s, c)).
  - cbn [app]. apply rev_involutive.
  - cbn [rev app snd]. unfold lru.Keys. by rewrite rev_involutive.
  - cbn [app]. by apply Keys_NoDup.
  - done.
Qed.

(** *** Lookups made one after the other *)

Lemma run_lookup_hit r ctx key s c e n :
  cache s = Some c ->
  lru.Peek key c = Some e ->
  run sharedFlag (S (S n)) (lookup DefaultResolver r ctx key) s =
  Some (Returned (rrs e, err e), set_cache s (Some (snd (lru.Get key c)))).
Proof.
  intros Hc Hp. unfold lookup. erewrite run_Load by exact Hc.
  rewrite (load_hit _ _ _ Hp). cbn [fst snd negb]. apply run_Ret.
Qed.

Lemma run_lookup_returns r ctx key s c :
  cache s = Some c ->
  lru.wf c ->
  quiescent (lookupGroup s) ->
  valid_key key ->
  exists o s' c' t,
    run sharedFlag 9 (lookup DefaultResolver r ctx key) s = Some (Returned o, s') /\
    cache s' = Some c' /\ lru.wf c' /\ quiescent (lookupGroup s') /\
    trace s' = trace s ++ t /\
    (t = [] \/
     exists ev, is_hook ev = false /\
                t = match OnCacheMiss r with Some _ => [EvOnCacheMiss] | None => [] end ++ [ev]).
Proof.
  intros Hc Hwf Hq Hv.
  destruct (lru.Peek key c) as [e|] eqn:Hp.
  - exists (rrs e, err e), (set_cache s (Some (snd (lru.Get key c)))), (snd (lru.Get key c)), [].
    split; [by apply run_lookup_hit|]. split; [done|]. split; [by apply Get_wf|].
    split; [done|]. split; [by rewrite app_nil_r | by left].
  - destruct (key_events_valid DefaultResolver r key Hv) as (fn & Hf & _ & Hev).
    destruct (run_lookup_miss DefaultResolver sharedFlag r ctx key fn s c Hc Hq Hp Hf)
      as (s' & Hrun & Hc' & Hq' & _ & Ht).
    eexists _, s', _, _. split; [exact (Hrun 0)|]. split; [exact Hc'|].
    split; [by apply storeLocked_wf|]. split; [done|]. split; [exact Ht|].
    right. exists (fn_event fn). split; [|done]. by destruct (fn_event fn).
Qed.

(** X11.  Lookups made one after the other on a Resolver with a Store, each
    run alone, all return: none panics or waits for ever, and the coordinator
    is quiescent again after each.  Each of them calls the resolver at most
    once, and the hook, when one is set, is invoked exactly as often as the
    resolver is called; with no hook set it is never invoked. *)
Theorem X11_sequential_lookups r reqs : forall s c,
  cache s = Some c ->
  lru.wf c ->
  quiescent (lookupGroup s) ->
  Forall (fun req => valid_key (snd req)) reqs ->
  exists outs s' t,
    lookup_seq DefaultResolver sharedFlag r reqs s = Some (outs, s') /\
    length outs = length reqs /\
    quiescent (lookupGroup s') /\
    trace s' = trace s ++ t /\
    length (List.filter (fun ev => negb (is_hook ev)) t) <= length reqs /\
    length (List.filter is_hook t) =
      match OnCacheMiss r with
      | Some _ => length (List.filter (fun ev => negb (is_hook ev)) t)
      | None => 0
      end.
Proof.
  induction reqs as [|[ctx key] reqs IH]; intros s c Hc Hwf Hq Hall.
  - exists [], s, []. cbn [lookup_seq length List.filter]. rewrite app_nil_r.
    split; [done|]. split; [done|]. split; [done|]. split; [done|]. split; [lia|].
    by destruct (OnCacheMiss r).
  - apply Forall_cons in Hall as [Hv Hall]. cbn [snd] in Hv.
    destruct (run_lookup_returns r ctx key s c Hc Hwf Hq Hv)
      as (o & s1 & c1 & t1 & Hrun & Hc1 & Hwf1 & Hq1 & Ht1 & Hshape).
    destruct (IH s1 c1 Hc1 Hwf1 Hq1 Hall) as (outs & s' & t & Hseq & Hlen & Hq' & Ht & Hle & Hcnt).
    exists (o :: outs), s', (t1 ++ t). cbn [lookup_seq]. rewrite Hrun, Hseq.
    split; [done|]. split; [simpl; by rewrite Hlen|]. split; [done|].
    split; [by rewrite Ht, Ht1, app_assoc|].
    rewrite !List.filter_app, !length_app.
    destruct Hshape as [->|(ev & Hev & ->)].
    + simpl. split; [lia | done].
    + destruct (OnCacheMiss r); simpl; rewrite Hev; simpl; split; lia.
Qed.

End More.

(** ** The further properties, at the scenarios *)

Section MoreWitnesses.

Import Scenario.

Lemma not_valid_x : ~ valid_key "x.example".
Proof. intros [subject [H|H]]; cbv in H; discriminate H. Defined.

Lemma wf_0 : lru.wf c_0.
Proof. split; [done | unfold lru.Len; simpl; lia | constructor]. Defined.

Lemma X1_witness :
  ~ valid_key "x.example" /\
  update stub r2 Background "x.example" = Panic "lookupFunc invalid key type: x.example" /\
  run joined 1 (update stub r2 Background "x.example") s2 =
    Some (Panicked "lookupFunc invalid key type: x.example", s2).
Proof.
  split; [exact not_valid_x|].
  destruct (proj2 (X1_lookupFunc_accepts_api_keys stub joined r2 "x.example") not_valid_x
              Background s2) as (Hu & _ & Hr).
  split; [exact Hu | exact Hr].
Defined.

Lemma X2_witness :
  lru.wf c_ab /\
  lru.Peek "ha" (storeLocked "hc" ["c.addr"] None c_ab) = None /\
  lru.Peek "hb" (storeLocked "hc" ["c.addr"] None c_ab) =
    Some {| rrs := ["b.addr"]; err := None |}.
Proof.
  split; [exact wf_ab|]. split.
  - exact (eq_trans (proj1 (X2_storeLocked_frame "hc" ["c.addr"] None c_ab "ha" wf_ab)) eq_refl).
  - exact (eq_trans (proj1 (X2_storeLocked_frame "hc" ["c.addr"] None c_ab "hb" wf_ab)) eq_refl).
Defined.

Lemma X3_witness :
  lru.wf c_ab /\
  (2 <= lru.size c_ab)%Z /\
  lru.Peek "ha" c_ab = Some {| rrs := ["a.addr"]; err := None |} /\
  lru.Peek "hc" c_ab = None /\
  lru.Peek "ha" (storeLocked "hc" ["c.addr"] None (snd (load "ha" c_ab))) =
    Some {| rrs := ["a.addr"]; err := None |}.
Proof.
  split; [exact wf_ab|]. split; [simpl; lia|]. split; [reflexivity|]. split; [reflexivity|].
  apply (X3_hit_protects_from_eviction "ha" "hc" c_ab {| rrs := ["a.addr"]; err := None |}
           ["c.addr"] None wf_ab); [simpl; lia | reflexivity | reflexivity].
Defined.

Lemma X4_witness :
  cache s2 = Some c_0 /\
  (0 < lru.size c_0)%Z /\
  quiescent (lookupGroup s2) /\
  lru.Peek (hostKey "a") c_0 = None /\
  exists s' c',
    (forall extra,
       run joined (9 + extra) (LookupHost stub r2 WithCancel "a") s2 =
       Some (Returned (["a.addr"], @None error), s')) /\
    world s' = 1 /\
    cache s' = Some c' /\
    lru.Peek (hostKey "a") c' = Some {| rrs := ["a.addr"]; err := None |} /\
    last (trace s') = Some (EvLookupHost Background "a").
Proof.
  split; [reflexivity|]. split; [simpl; lia|]. split; [done|]. split; [reflexivity|].
  apply (proj1 (proj2 (X4_miss_returns_resolver_answer stub joined r2 WithCancel "a" s2 c_0
                         eq_refl ltac:(simpl; lia) (conj eq_refl (conj eq_refl eq_refl))))).
  reflexivity.
Defined.

Lemma X5_witness :
  Shared res_own = false /\
  cache s_recv_hit = Some c_r /\
  (0 < lru.size c_r)%Z /\
  exists c',
    next (update_select "r192.0.2.1" (Received res_own)) s_recv_hit =
      [(Ret (["three.example."], @None error), set_cache s_recv_hit (Some c'))] /\
    lru.Peek "r192.0.2.1" c' = Some {| rrs := ["three.example."]; err := None |} /\
    lru.size c' = lru.size c_r.
Proof.
  split; [reflexivity|]. split; [reflexivity|]. split; [simpl; lia|].
  apply (X5_unshared_outcome_overwrites "r192.0.2.1" res_own s_recv_hit c_r);
    [reflexivity | reflexivity | simpl; lia].
Defined.

Lemma X6_witness :
  (0 < 128)%Z /\
  run joined 2 (Refresh stub r2) (initial (snd (NewDNSResolver (W := nat) 128)) world0) =
    Some (Returned tt, initial (snd (NewDNSResolver (W := nat) 128)) world0).
Proof.
  split; [lia|].
  apply (proj2 (X6_refresh_of_empty_store stub joined r2) 128%Z world0). lia.
Defined.


Lemma X8_witness :
  Forall (api_thread stub) pool_a /\
  exec joined sched_a (pool_a, initial (lru.New 2) world0) =
    Some ([Thread (Ret (["a.addr"], @None error))], s_a) /\
  cache s_a = Some c_a /\
  NoDup (lru.Keys c_a) /\
  (forall k, k ∈ lru.Keys c_a -> valid_key k) /\
  (forall r k, k ∈ lru.Keys c_a -> exists fn, lookupFunc stub r k = inr fn).
Proof.
  assert (Forall (api_thread stub) pool_a) as Hpool.
  { apply Forall_cons. split; [apply api_LookupHost | apply Forall_nil_2]. }
  split; [exact Hpool|]. split; [vm_compute; reflexivity|]. split; [reflexivity|].
  apply (X8_store_keys_are_api_keys stub joined 2%Z world0 sched_a pool_a
           [Thread (Ret (["a.addr"], @None error))] s_a c_a Hpool);
    [vm_compute; reflexivity | reflexivity].
Defined.

Lemma X9_witness :
  cache s_ab = Some c_ab /\
  lru.wf c_ab /\
  quiescent (lookupGroup s_ab) /\
  (forall k, k ∈ lru.Keys c_ab -> valid_key k) /\
  joined true 0 = false /\
  exists s' c',
    run joined 12 (Refresh stub r2) s_ab = Some (Returned tt, s') /\
    cache s' = Some c' /\
    world s' = 4 /\
    lru.Peek "ha" c' = Some {| rrs := ["a.addr"]; err := None |}.
Proof.
  split; [reflexivity|]. split; [exact wf_ab|]. split; [done|]. split; [exact valid_ab|].
  split; [reflexivity|].
  destruct (X9_refresh_replaces_every_entry stub joined r2 s_ab c_ab eq_refl wf_ab
              (conj eq_refl (conj eq_refl eq_refl)) valid_ab eq_refl)
    as (s' & c' & Hrun & Hc & Hw & Hent).
  exists s', c'. split; [exact (Hrun 0)|]. split; [exact Hc|]. split; [exact Hw|].
  exact (Hent [] "ha" ["hb"] fn_a eq_refl eq_refl).
Defined.

Lemma X10_witness :
  cache s_ab = Some c_ab /\
  lru.wf c_ab /\
  quiescent (lookupGroup s_ab) /\
  (forall k, k ∈ lru.Keys c_ab -> valid_key k) /\
  exists s' c',
    run joined 12 (Refresh stub r2) s_ab = Some (Returned tt, s') /\
    cache s' = Some c' /\
    lru.Keys c' = ["ha"; "hb"] /\
    lru.size c' = 2%Z.
Proof.
  split; [reflexivity|]. split; [exact wf_ab|]. split; [done|]. split; [exact valid_ab|].
  destruct (X10_refresh_keeps_recency_order stub joined r2 s_ab c_ab eq_refl wf_ab
              (conj eq_refl (conj eq_refl eq_refl)) valid_ab)
    as (s' & c' & Hrun & Hc & Hk & Hsz).
  exists s', c'. split; [exact (Hrun 0)|]. split; [exact Hc|]. split; [exact Hk | exact Hsz].
Defined.

Lemma valid_reqs3 : Forall (fun req : Context * string => valid_key (snd req)) reqs3.
Proof.
  repeat (apply Forall_cons; split); [exists "a"; by left | exists "192.0.2.1"; by right
                                     | exists "a"; by left | apply Forall_nil_2].
Defined.

Lemma X11_witness :
  cache s2 = Some c_0 /\
  lru.wf c_0 /\
  quiescent (lookupGroup s2) /\
  Forall (fun req : Context * string => valid_key (snd req)) reqs3 /\
  exists outs s' t,
    lookup_seq stub joined r_hook reqs3 s2 = Some (outs, s') /\
    length outs = 3 /\
    quiescent (lookupGroup s') /\
    trace s' = trace s2 ++ t /\
    length (List.filter (fun ev => negb (is_hook ev)) t) <= 3 /\
    length (List.filter is_hook t) = length (List.filter (fun ev => negb (is_hook ev)) t).
Proof.
  split; [reflexivity|]. split; [exact wf_0|]. split; [done|]. split; [exact valid_reqs3|].
  exact (X11_sequential_lookups stub joined r_hook reqs3 s2 c_0 eq_refl wf_0
           (conj eq_refl (conj eq_refl eq_refl)) valid_reqs3).
Defined.

(** The three lookups of [reqs3]: two misses, each with one hook invocation
    and one resolver call, then a hit. *)
Example lookups3 :
  exists s',
    lookup_seq stub joined r_hook reqs3 s2 =
      Some ([(["a.addr"], None); ([], Some (ErrorString "no such host")); (["a.addr"], None)], s') /\
    trace s' = [EvOnCacheMiss; EvLookupHost Background "a";
                EvOnCacheMiss; EvLookupAddr Background "192.0.2.1"].
Proof. eexists. split; [vm_compute; reflexivity | reflexivity]. Qed.

End MoreWitnesses.
